(** * Verification of the chunking-and-reassembly pipeline of BookReaderAgent

    Shallow embedding of [src/src/services/audioGenerator.ts]:
    - [splitTextIntoChunks] (the text segmenter),
    - [createCleanFileName] (file names of artifacts and parts),
    - [generateAudio], [concatenateAudioFiles] and
      [generateChapterAudioWithChunking] (the chunked build), over an explicit
      file store, an event trace and oracles for the two external processes
      (the speech synthesis client and ffmpeg),
    - [escapeRegex] and [cleanContentForTTS] (markdown and duplicate-title
      removal, its regular expressions written out as matchers),
    - [generateChapterAudio] and [generateMultipleChapterAudio].

    JavaScript strings are sequences of UTF-16 code units; a string is a
    [list N] of code units and [length] is JavaScript's [.length]. *)

From Stdlib Require Import Strings.String Strings.Ascii.
From Stdlib Require Import List Arith Lia NArith Bool.
From stdpp Require Import base gmap.
Import ListNotations.

Local Open Scope N_scope.

(** ** Strings *)

Abbreviation jstr := (list N) (only parsing).

(** The character class [\s] of JavaScript regular expressions; it is also
    the set (WhiteSpace and LineTerminator) that [String.prototype.trim]
    removes. *)
Definition is_ws (c : N) : bool :=
  (9 <=? c) && (c <=? 13) || (c =? 32) || (c =? 160) || (c =? 5760)
  || (8192 <=? c) && (c <=? 8202) || (c =? 8232) || (c =? 8233)
  || (c =? 8239) || (c =? 8287) || (c =? 12288) || (c =? 65279).

(** JavaScript truthiness of a string: non-empty. *)
Definition truthy (s : jstr) : bool :=
  match s with [] => false | _ => true end.

Fixpoint drop_ws (s : jstr) : jstr :=
  match s with
  | [] => []
  | c :: s' => if is_ws c then drop_ws s' else s
  end.

(** [String.prototype.trim]. *)
Definition trim (s : jstr) : jstr := rev (drop_ws (rev (drop_ws s))).

(** Code units of an ASCII literal, to write concrete inputs. *)
Fixpoint of_ascii (s : String.string) : jstr :=
  match s with
  | String.EmptyString => []
  | String.String a s' => N.of_nat (Ascii.nat_of_ascii a) :: of_ascii s'
  end.

(** ** [String.prototype.split] with a regular expression

    The two separators used by the segmenter, [/\n\n+/] and
    [/(?<=[.!?])\s+/], are each "a start condition at the current position
    (which may look one code unit behind), followed by the greedy run of a
    character class".  [split_go] is the [RegExp.prototype[@@split]] loop for
    such a separator: [in_sep] tells that the separator match in progress may
    still be extended, [prev] is the code unit before the current position,
    [cur] the piece being built (reversed). A new match is tried at the
    position where the previous one ended, as the JavaScript loop does. *)
Section Split.
Variable start : option N -> jstr -> bool.
Variable cls : N -> bool.

Fixpoint split_go (in_sep : bool) (prev : option N) (cur : jstr) (s : jstr)
  : list jstr :=
  match s with
  | [] => [rev cur]
  | c :: s' =>
      if in_sep && cls c then split_go true (Some c) [] s'
      else if start prev s then rev cur :: split_go true (Some c) [] s'
      else split_go false (Some c) (c :: cur) s'
  end.

Definition regex_split (s : jstr) : list jstr := split_go false None [] s.
End Split.

(** [/\n\n+/]: two line feeds, then as many more as there are. *)
Definition para_start (_ : option N) (s : jstr) : bool :=
  match s with
  | a :: b :: _ => (a =? 10) && (b =? 10)
  | _ => false
  end.

Definition is_nl (c : N) : bool := c =? 10.

(** [/(?<=[.!?])\s+/]: a white space code unit preceded by [.], [!] or [?]. *)
Definition is_sentence_end (c : N) : bool := (c =? 46) || (c =? 33) || (c =? 63).

Definition sent_start (prev : option N) (s : jstr) : bool :=
  match prev, s with
  | Some p, c :: _ => is_sentence_end p && is_ws c
  | _, _ => false
  end.

Local Close Scope N_scope.

Definition split_paragraphs (s : jstr) : list jstr := regex_split para_start is_nl s.
Definition split_sentences (s : jstr) : list jstr := regex_split sent_start is_ws s.

(** ** [splitTextIntoChunks] *)

Definition MAX_CHARS_PER_REQUEST : nat := 4500.

(** State of the loops: the chunks pushed so far, in order, and
    [currentChunk]. *)
Definition chunk_state := (list jstr * jstr)%type.

(** One iteration of [for (const sentence of sentences)]. *)
Definition sentence_step (st : chunk_state) (sentence : jstr) : chunk_state :=
  let '(chunks, currentChunk) := st in
  if Nat.ltb MAX_CHARS_PER_REQUEST (length currentChunk + length sentence + 1)
  then ((if truthy currentChunk then chunks ++ [trim currentChunk] else chunks),
        sentence)
  else (chunks, currentChunk ++ (if truthy currentChunk then [32%N] else []) ++ sentence).

(** One iteration of [for (const paragraph of paragraphs)]. *)
Definition paragraph_step (st : chunk_state) (paragraph : jstr) : chunk_state :=
  let '(chunks, currentChunk) := st in
  if Nat.ltb MAX_CHARS_PER_REQUEST (length paragraph) then
    let chunks1 := if truthy currentChunk then chunks ++ [trim currentChunk] else chunks in
    fold_left sentence_step (split_sentences paragraph) (chunks1, [])
  else
    let potentialChunk :=
      currentChunk ++ (if truthy currentChunk then [10%N; 10%N] else []) ++ paragraph in
    if Nat.ltb MAX_CHARS_PER_REQUEST (length potentialChunk)
    then (chunks ++ [trim currentChunk], paragraph)
    else (chunks, potentialChunk).

Definition splitTextIntoChunks (text : jstr) : list jstr :=
  if Nat.leb (length text) MAX_CHARS_PER_REQUEST then [text]
  else
    let '(chunks, currentChunk) :=
      fold_left paragraph_step (split_paragraphs text) ([], []) in
    if truthy currentChunk then chunks ++ [trim currentChunk] else chunks.

(** The non-whitespace content of a string, in order. *)
Definition nws (s : jstr) : jstr := List.filter (fun c => negb (is_ws c)) s.
Arguments nws s : simpl never.

(** Content of a loop state: the pushed chunks followed by [currentChunk]. *)
Definition content (st : chunk_state) : jstr :=
  nws (concat (fst st)) ++ nws (snd st).

(** ** [createCleanFileName] *)

Local Open Scope N_scope.

(** [String.prototype.toLowerCase] on the code units where it maps one
    code unit to one code unit in the ASCII and Latin-1 ranges.  The full
    Unicode case mapping is not modelled; [createCleanFileName_with] takes
    the lowering as an argument so that its properties are proved for any. *)
Definition to_lower_unit (c : N) : N :=
  if (65 <=? c) && (c <=? 90) then c + 32
  else if (192 <=? c) && (c <=? 222) && negb (c =? 215) then c + 32
  else c.

Definition toLowerCase (s : jstr) : jstr := map to_lower_unit s.

Definition is_lower_alpha (c : N) : bool := (97 <=? c) && (c <=? 122).
Definition is_digit (c : N) : bool := (48 <=? c) && (c <=? 57).
Definition is_hyphen (c : N) : bool := c =? 45.

(** The complement of [/[^a-z0-9\s-]/]. *)
Definition keep_name_char (c : N) : bool :=
  is_lower_alpha c || is_digit c || is_ws c || is_hyphen c.

(** [.replace(/X+/g, r)] for a one-code-unit class [X]: every maximal run of
    code units of the class becomes [r]. *)
Fixpoint collapse_runs (p : N -> bool) (r : N) (in_run : bool) (s : jstr) : jstr :=
  match s with
  | [] => []
  | c :: s' =>
      if p c then (if in_run then collapse_runs p r true s' else r :: collapse_runs p r true s')
      else c :: collapse_runs p r false s'
  end.

(** [.replace(/^-|-$/g, '')]: a hyphen at the start goes, then a hyphen at
    the end of what is left. *)
Definition strip_hyphens (s : jstr) : jstr :=
  let s1 := match s with c :: t => if is_hyphen c then t else s | [] => [] end in
  match rev s1 with c :: t => if is_hyphen c then rev t else s1 | [] => [] end.

Local Close Scope N_scope.

Definition createCleanFileName_with (lower : jstr -> jstr) (title : jstr) : jstr :=
  firstn 100
    (strip_hyphens
       (collapse_runs is_hyphen 45%N false
          (collapse_runs is_ws 45%N false
             (List.filter keep_name_char (lower title))))).

Definition createCleanFileName (title : jstr) : jstr :=
  createCleanFileName_with toLowerCase title.

(** ** The chunked build *)

(** Paths: [path.join(dir, name)].  The normalisation [path.join] performs
    is not modelled; every file of one build is joined to the same
    directory. *)
Definition path_join (dir name : jstr) : jstr := dir ++ [47%N] ++ name.

Fixpoint take_until_slash (s : jstr) : jstr :=
  match s with
  | [] => []
  | c :: t => if N.eqb c 47 then [] else c :: take_until_slash t
  end.

(** [path.basename]. *)
Definition basename (f : jstr) : jstr := rev (take_until_slash (rev f)).

(** Decimal digits of a number, as in a template literal [`${n}`]. *)
Fixpoint digits_aux (fuel n : nat) (acc : jstr) : jstr :=
  match fuel with
  | O => acc
  | S f =>
      let acc' := (48 + N.of_nat (n mod 10))%N :: acc in
      if Nat.ltb n 10 then acc' else digits_aux f (n / 10) acc'
  end.

Definition show_nat (n : nat) : jstr := digits_aux (S n) n [].

(** What the program observes of the outside world: calls to the speech
    synthesis service and to ffmpeg, in order. *)
Inductive event :=
| EvSynth (text : jstr)
| EvMerge (parts : list jstr) (output : jstr).

(** Answer of [client.synthesizeSpeech]: it throws with a message, or it
    returns a response whose [audioContent] is missing or falsy ([None]) or
    a payload. *)
Inductive tts_response :=
| TtsThrow (message : jstr)
| TtsResult (audioContent : option jstr).

(** Outcome of the ffmpeg process: the ['end'] event, after which the
    output file holds the merged audio, or the ['error'] event, possibly
    after ffmpeg wrote part of the output file. *)
Inductive ffmpeg_outcome :=
| FfEnd (merged : jstr)
| FfError (message : jstr) (partial : option jstr).

Record world := mkWorld {
  files : gmap (list N) (list N);
  trace : list event
}.

(** State and exceptions: a thrown [Error] is [inl] of its message. *)
Definition M (A : Type) : Type := world -> (jstr + A) * world.

Definition ret {A} (a : A) : M A := fun w => (inr a, w).
Definition bind {A B} (m : M A) (k : A -> M B) : M B :=
  fun w => match m w with
           | (inl e, w') => (inl e, w')
           | (inr a, w') => k a w'
           end.
Definition throw {A} (e : jstr) : M A := fun w => (inl e, w).
(** [try { m } catch (error) { h(error.message) }]. *)
Definition catch {A} (m : M A) (h : jstr -> M A) : M A :=
  fun w => match m w with
           | (inl e, w') => h e w'
           | r => r
           end.

Notation "'let*' x ':=' c 'in' k" := (bind c (fun x => k))
  (at level 200, x name, c at level 100, k at level 200).

Definition log (ev : event) : M unit :=
  fun w => (inr tt, mkWorld (files w) (trace w ++ [ev])).
Definition get_trace : M (list event) := fun w => (inr (trace w), w).
Definition get_files : M (gmap (list N) (list N)) := fun w => (inr (files w), w).

Definition enoent (f : jstr) : jstr := of_ascii "ENOENT: no such file or directory, "%string ++ f.

Definition writeFileSync (f data : jstr) : M unit :=
  fun w => (inr tt, mkWorld (<[f := data]> (files w)) (trace w)).
Definition existsSync (f : jstr) : M bool :=
  fun w => (inr (bool_decide (is_Some (files w !! f))), w).
Definition unlinkSync (f : jstr) : M unit :=
  fun w => match files w !! f with
           | Some _ => (inr tt, mkWorld (delete f (files w)) (trace w))
           | None => (inl (enoent f), w)
           end.
(** [fs.statSync(f).size]. *)
Definition statSync (f : jstr) : M nat :=
  fun w => match files w !! f with
           | Some d => (inr (length d), w)
           | None => (inl (enoent f), w)
           end.

Fixpoint forEach {A} (g : A -> M unit) (l : list A) : M unit :=
  match l with
  | [] => ret tt
  | x :: l' => let* _ := g x in forEach g l'
  end.

Record AudioFile := mkAudioFile {
  filePath : jstr;
  fileName : jstr;
  size : nat
}.

Definition tts_failed : jstr := of_ascii "TTS generation failed: "%string.
Definition no_audio : jstr := of_ascii "No audio content received from TTS service"%string.
Definition ffmpeg_failed : jstr := of_ascii "FFmpeg concatenation failed: "%string.
Definition mp3 : jstr := of_ascii ".mp3"%string.
Definition concat_list_name : jstr := of_ascii ".concat-list.txt"%string.
Definition part_infix : jstr := of_ascii "-part"%string.

Fixpoint join_lines (l : list jstr) : jstr :=
  match l with
  | [] => []
  | [x] => x
  | x :: l' => x ++ [10%N] ++ join_lines l'
  end.

Section Build.
Variable outputDir : jstr.
(** The speech synthesis service, given the trace so far (whose last event
    is the present call) and the text. *)
Variable synthesizeSpeech : list event -> jstr -> tts_response.
(** The ffmpeg run on the concat list, given the file store, the concat
    list path and the output path. *)
Variable ffmpeg : gmap (list N) (list N) -> jstr -> jstr -> ffmpeg_outcome.
(** [cleanContentForTTS] (markdown and duplicate-title removal).  No
    property below depends on how it cleans, so it is left abstract and
    every result holds for any cleaning function. *)
Variable cleanContentForTTS : jstr -> jstr -> jstr.

Definition generateAudio (text fileName : jstr) : M AudioFile :=
  catch
    (let* _ := log (EvSynth text) in
     let* h := get_trace in
     match synthesizeSpeech h text with
     | TtsThrow m => throw m
     | TtsResult None => throw no_audio
     | TtsResult (Some audio) =>
         let fp := path_join outputDir (fileName ++ mp3) in
         let* _ := writeFileSync fp audio in
         let* sz := statSync fp in
         ret (mkAudioFile fp (fileName ++ mp3) sz)
     end)
    (fun m => throw (tts_failed ++ m)).

Definition concatListPath : jstr := path_join outputDir concat_list_name.

(** The content of the concat list: [file '<basename>'] per part. *)
Definition concat_list (partFiles : list jstr) : jstr :=
  join_lines (map (fun f => of_ascii "file '"%string ++ basename f ++ of_ascii "'"%string)
                  partFiles).

Definition concatenateAudioFiles (partFiles : list jstr) (outputFile : jstr) : M unit :=
  let concatList := concat_list partFiles in
  let* _ := writeFileSync concatListPath concatList in
  let* _ := log (EvMerge partFiles outputFile) in
  let* fs := get_files in
  match ffmpeg fs concatListPath outputFile with
  | FfEnd merged =>
      let* _ := writeFileSync outputFile merged in
      let* _ := unlinkSync concatListPath in
      let* _ := forEach (fun f => let* e := existsSync f in
                                  if e then unlinkSync f else ret tt) partFiles in
      ret tt
  | FfError msg partial =>
      let* _ := match partial with
                | Some d => writeFileSync outputFile d
                | None => ret tt
                end in
      let* e := existsSync concatListPath in
      let* _ := if e then unlinkSync concatListPath else ret tt in
      throw (ffmpeg_failed ++ msg)
  end.

Definition part_name (cleanFileName : jstr) (i : nat) : jstr :=
  cleanFileName ++ part_infix ++ show_nat (S i).

(** The [filePath] [generateAudio] returns for part [i] (0-based). *)
Definition part_path (cleanFileName : jstr) (i : nat) : jstr :=
  path_join outputDir (part_name cleanFileName i ++ mp3).

Definition final_path (cleanFileName : jstr) : jstr :=
  path_join outputDir (cleanFileName ++ mp3).

(** The loop [for (let i = 0; i < chunks.length; i++)]. *)
Fixpoint generate_parts (cleanFileName : jstr) (i : nat) (chunks : list jstr)
  : M (list jstr) :=
  match chunks with
  | [] => ret []
  | c :: cs =>
      let* partFile := generateAudio c (part_name cleanFileName i) in
      let* rest := generate_parts cleanFileName (S i) cs in
      ret (filePath partFile :: rest)
  end.

Definition generateChapterAudioWithChunking (chapterTitle chapterContent : jstr)
  : M AudioFile :=
  let cleanFileName := createCleanFileName chapterTitle in
  let cleanedContent := cleanContentForTTS chapterTitle chapterContent in
  if Nat.leb (length cleanedContent) MAX_CHARS_PER_REQUEST then
    generateAudio cleanedContent cleanFileName
  else
    let chunks := splitTextIntoChunks cleanedContent in
    let* partFiles := generate_parts cleanFileName 0 chunks in
    let finalFilePath := final_path cleanFileName in
    let* _ := concatenateAudioFiles partFiles finalFilePath in
    let* sz := statSync finalFilePath in
    ret (mkAudioFile finalFilePath (cleanFileName ++ mp3) sz).
End Build.

(** The file store after [unlinkSync] of each of [ps] that exists. *)
Fixpoint delete_all (ps : list jstr) (m : gmap (list N) (list N)) : gmap (list N) (list N) :=
  match ps with
  | [] => m
  | p :: ps' => delete_all ps' (delete p m)
  end.

(** The message of the [Error] that [generateAudio]'s [try] block raises
    on a response of the synthesis service, if it raises one. *)
Definition tts_failure_message (r : tts_response) : option jstr :=
  match r with
  | TtsThrow m => Some m
  | TtsResult None => Some no_audio
  | TtsResult (Some _) => None
  end.

(** ** Concrete inputs *)

Definition demo_dir : jstr := of_ascii "audio"%string.
Definition demo_title : jstr := of_ascii "Chapter 1: Intro"%string.
(** Two paragraphs of 3000 code units: over the ceiling, two segments. *)
Definition demo_text : jstr := repeat 97%N 3000 ++ [10%N; 10%N] ++ repeat 98%N 3000.
Definition demo_short : jstr := of_ascii "Hello there."%string.
Definition boom : jstr := of_ascii "boom"%string.
Definition demo_clean (title content : jstr) : jstr := content.
Definition tts_ok (h : list event) (t : jstr) : tts_response := TtsResult (Some [1%N]).
(** Fails on the call number [n + 1] of a trace that starts empty. *)
Definition tts_fail_at (n : nat) (h : list event) (t : jstr) : tts_response :=
  if Nat.eqb (length h) (S n) then TtsThrow boom else TtsResult (Some [1%N]).
Definition ff_ok (fs : gmap (list N) (list N)) (c o : jstr) : ffmpeg_outcome := FfEnd [2%N].
Definition ff_fail (fs : gmap (list N) (list N)) (c o : jstr) : ffmpeg_outcome :=
  FfError boom None.
Definition w0 : world := mkWorld ∅ [].
Abbreviation demo_run tts ff text :=
  (generateChapterAudioWithChunking demo_dir tts ff demo_clean demo_title text w0).

Abbreviation demo_name := (createCleanFileName demo_title).
Abbreviation demo_final := (final_path demo_dir demo_name).
Definition demo_af : AudioFile := mkAudioFile demo_final (demo_name ++ mp3) 1.
Definition spaced_a : jstr := of_ascii " a "%string.
Definition one_space : jstr := [32%N].
Definition long_title : jstr := repeat 97%N 99 ++ of_ascii " b"%string.

(** ** [escapeRegex] *)

Local Open Scope N_scope.

(** The class [[.*+?^${}()|[\]\\]]. *)
Definition is_regex_special (c : N) : bool :=
  (c =? 46) || (c =? 42) || (c =? 43) || (c =? 63) || (c =? 94) || (c =? 36)
  || (c =? 123) || (c =? 125) || (c =? 40) || (c =? 41) || (c =? 124)
  || (c =? 91) || (c =? 93) || (c =? 92).

(** [text.replace(/[.*+?^${}()|[\]\\]/g, '\\$&')]: a backslash before each
    special code unit. *)
Definition escapeRegex (text : jstr) : jstr :=
  flat_map (fun c => if is_regex_special c then [92; c] else [c]) text.

(** How a pattern source made of literals reads: [\c] for a special [c]
    (an identity escape) stands for [c], any other code unit that is not
    special stands for itself; [None] when the source has a special code
    unit outside such an escape, or an escape of another kind, and so is
    not a plain sequence of literals. *)
Fixpoint regex_literal (s : jstr) : option jstr :=
  match s with
  | [] => Some []
  | c :: t =>
      if c =? 92 then
        match t with
        | d :: t' => if is_regex_special d then option_map (cons d) (regex_literal t')
                     else None
        | [] => None
        end
      else if is_regex_special c then None
      else option_map (cons c) (regex_literal t)
  end.

(** ** [cleanContentForTTS]

    Each [.replace] with a regular expression is written out as the scan
    that JavaScript's global replace performs: a match is tried at each
    position from left to right, with the backtracking order of the
    pattern, and the scan resumes where the match ended.  The scans that
    skip a whole match carry a fuel argument, the length of the input plus
    one, which is never exhausted: each step consumes a code unit. *)

(** [LineTerminator]: what [^] with the [m] flag and [.] look at. *)
Definition is_line_terminator (c : N) : bool :=
  (c =? 10) || (c =? 13) || (c =? 8232) || (c =? 8233).

Definition is_hash (c : N) : bool := c =? 35.

Fixpoint span (p : N -> bool) (s : jstr) : jstr * jstr :=
  match s with
  | [] => ([], [])
  | c :: t => if p c then let '(a, b) := span p t in (c :: a, b) else ([], s)
  end.

(** [/^\s*#+\s*/] at a line start: the greedy [\s*] needs a [#] after it
    (a shorter [\s*] leaves a white space code unit, not a [#]), then all
    the [#] and all the white space after them.  The match and the rest. *)
Definition header_match (s : jstr) : option (jstr * jstr) :=
  let '(w1, s1) := span is_ws s in
  let '(h, s2) := span is_hash s1 in
  match h with
  | [] => None
  | _ => let '(w2, s3) := span is_ws s2 in Some (w1 ++ h ++ w2, s3)
  end.

(** [.replace(/^\s*#+\s*/gm, '')]; [bol]: the position is a line start
    (the start of input, or after a line terminator). *)
Fixpoint strip_headers_go (fuel : nat) (bol : bool) (s : jstr) : jstr :=
  match fuel with
  | O => s
  | S f =>
      match s with
      | [] => []
      | c :: t =>
          match (if bol then header_match s else None) with
          | Some (m, rest) =>
              strip_headers_go f
                (match rev m with d :: _ => is_line_terminator d | [] => bol end) rest
          | None => c :: strip_headers_go f (is_line_terminator c) t
          end
      end
  end.

Definition strip_headers (s : jstr) : jstr := strip_headers_go (S (length s)) true s.

Fixpoint starts_with (d s : jstr) : bool :=
  match d, s with
  | [], _ => true
  | a :: d', c :: s' => (a =? c) && starts_with d' s'
  | _ :: _, [] => false
  end.

(** The lazy [(.*?)] then the delimiter [d]: the shortest run of code
    units other than line terminators that [d] follows.  The run and the
    rest after [d]. *)
Fixpoint lazy_until (d s : jstr) : option (jstr * jstr) :=
  if starts_with d s then Some ([], skipn (length d) s)
  else
    match s with
    | [] => None
    | c :: t =>
        if is_line_terminator c then None
        else option_map (fun p => (c :: fst p, snd p)) (lazy_until d t)
    end.

(** [.replace(/D(.*?)D/g, '$1')] for the delimiter [D] = [d]. *)
Fixpoint unwrap_go (d : jstr) (fuel : nat) (s : jstr) : jstr :=
  match fuel with
  | O => s
  | S f =>
      match s with
      | [] => []
      | c :: t =>
          match (if starts_with d s then lazy_until d (skipn (length d) s) else None) with
          | Some (inner, rest) => inner ++ unwrap_go d f rest
          | None => c :: unwrap_go d f t
          end
      end
  end.

Definition unwrap (d s : jstr) : jstr := unwrap_go d (S (length s)) s.

Definition bold_delim : jstr := [42; 42].
Definition italic_delim : jstr := [42].

(** [.replace(/\n{3,}/g, '\n\n')]: [k] line feeds are pending; a run of
    three or more becomes two, a shorter run stays. *)
Fixpoint normalize_newlines_go (k : nat) (s : jstr) : jstr :=
  match s with
  | [] => repeat 10 (if Nat.leb 3 k then 2%nat else k)
  | c :: t =>
      if c =? 10 then normalize_newlines_go (S k) t
      else repeat 10 (if Nat.leb 3 k then 2%nat else k) ++ c :: normalize_newlines_go 0%nat t
  end.

Definition normalize_newlines (s : jstr) : jstr := normalize_newlines_go 0 s.

Section Clean.
(** [Canonicalize] of the [i] flag (no [u] flag): the code unit compared in
    place of [c]. *)
Variable canon : N -> N.

(** A literal, compared after [canon]; the rest of the input. *)
Fixpoint lit_match (v s : jstr) : option jstr :=
  match v, s with
  | [], _ => Some s
  | a :: v', c :: s' => if canon a =? canon c then lit_match v' s' else None
  | _ :: _, [] => None
  end.

(** [\s*(\n|$)], the greedy [\s*] backtracking from its longest run: the
    length matched. *)
Fixpoint tail_match (s : jstr) : option nat :=
  match s with
  | [] => Some 0%nat
  | c :: t =>
      if is_ws c then
        match tail_match t with
        | Some n => Some (S n)
        | None => if c =? 10 then Some 1%nat else None
        end
      else None
  end.

Definition lit_tail_match (v s : jstr) : option nat :=
  match lit_match v s with
  | Some r => option_map (fun n => length v + n)%nat (tail_match r)
  | None => None
  end.

(** [\s*V\s*(\n|$)] for the literal [V] = [v], backtracking as above. *)
Fixpoint body_match (v s : jstr) : option nat :=
  match s with
  | [] => lit_tail_match v s
  | c :: t =>
      if is_ws c then
        match body_match v t with
        | Some n => Some (S n)
        | None => lit_tail_match v s
        end
      else lit_tail_match v s
  end.

(** [(^|\n)\s*V\s*(\n|$)] (flags [gi], so [^] is the start of input only)
    at a position; [at_start]: the position is [0]. *)
Definition title_match_at (v : jstr) (at_start : bool) (s : jstr) : option nat :=
  match (if at_start then body_match v s else None) with
  | Some n => Some n
  | None =>
      match s with
      | c :: t => if c =? 10 then option_map S (body_match v t) else None
      | [] => None
      end
  end.

(** [cleanedContent.match(titleRegex)]: the matches, in order. *)
Fixpoint title_matches_go (v : jstr) (fuel : nat) (at_start : bool) (s : jstr) : list jstr :=
  match fuel with
  | O => []
  | S f =>
      match title_match_at v at_start s with
      | Some (S n) => firstn (S n) s :: title_matches_go v f false (skipn (S n) s)
      | Some O => [] :: match s with [] => [] | _ :: t => title_matches_go v f false t end
      | None => match s with [] => [] | _ :: t => title_matches_go v f false t end
      end
  end.

Definition title_matches (v s : jstr) : list jstr := title_matches_go v (S (length s)) true s.

(** [cleanedContent.replace(titleRegex, (match) => ...)]: the first match
    is kept, each later one becomes a line feed. *)
Fixpoint replace_title_go (v : jstr) (fuel : nat) (at_start first : bool) (s : jstr) : jstr :=
  match fuel with
  | O => s
  | S f =>
      match title_match_at v at_start s with
      | Some (S n) =>
          (if first then firstn (S n) s else [10]) ++
          replace_title_go v f false false (skipn (S n) s)
      | Some O =>
          (if first then [] else [10]) ++
          match s with [] => [] | c :: t => c :: replace_title_go v f false false t end
      | None =>
          match s with [] => [] | c :: t => c :: replace_title_go v f false first t end
      end
  end.

Definition replace_title (v s : jstr) : jstr := replace_title_go v (S (length s)) true true s.

(** One iteration of [for (const variation of titleVariations)]. *)
Definition dedupe_step (cleanedContent variation : jstr) : jstr :=
  if negb (truthy (trim variation)) then cleanedContent
  else if Nat.ltb 1 (length (title_matches variation cleanedContent))
  then replace_title variation cleanedContent
  else cleanedContent.

(** [title.replace(/^Chapter \d+:\s*/i, '')]: at the start only; the
    greedy [\d+] must be followed by [:] (a shorter run leaves a digit). *)
Definition strip_chapter_prefix (title : jstr) : jstr :=
  match lit_match (of_ascii "Chapter "%string) title with
  | Some r =>
      let '(ds, r1) := span is_digit r in
      match ds, r1 with
      | _ :: _, c :: r2 => if c =? 58 then drop_ws r2 else title
      | _, _ => title
      end
  | None => title
  end.

(** [title.replace(/:\s*$/, '')]: the first [:] followed by white space
    only, up to the end, goes with it. *)
Fixpoint strip_trailing_colon (title : jstr) : jstr :=
  match title with
  | [] => []
  | c :: t => if (c =? 58) && forallb is_ws t then [] else c :: strip_trailing_colon t
  end.

Definition cleanContentForTTS_with (title content : jstr) : jstr :=
  let cleanedContent := trim content in
  let cleanedContent :=
    trim (normalize_newlines
            (unwrap italic_delim (unwrap bold_delim (strip_headers cleanedContent)))) in
  let titleVariations := [title; strip_chapter_prefix title; strip_trailing_colon title] in
  let cleanedContent := fold_left dedupe_step titleVariations cleanedContent in
  trim (normalize_newlines cleanedContent).
End Clean.

(** [Canonicalize] for the code units below 256 (ASCII and Latin-1): the
    single code unit of [toUpperCase], kept when it would map a non-ASCII
    unit to ASCII or when the upper case has two units ([ß]).  Code units
    from 256 on are left as they are: the full Unicode case mapping is not
    modelled, and every property below is proved for any [canon]. *)
Definition canonicalize (c : N) : N :=
  if (97 <=? c) && (c <=? 122) then c - 32
  else if c =? 181 then 924
  else if (224 <=? c) && (c <=? 254) && negb (c =? 247) then c - 32
  else if c =? 255 then 376
  else c.

Local Close Scope N_scope.

Definition cleanContentForTTS (title content : jstr) : jstr :=
  cleanContentForTTS_with canonicalize title content.

(** ** [generateChapterAudio] and [generateMultipleChapterAudio] *)

Module Chapter.
Record t := mk { id : jstr; title : jstr; content : jstr }.
End Chapter.

Section Chapters.
Variable outputDir : jstr.
Variable synthesizeSpeech : list event -> jstr -> tts_response.
Variable cleanContentForTTS : jstr -> jstr -> jstr.

Definition generateChapterAudio (chapterTitle chapterContent chapterId : jstr) : M AudioFile :=
  let cleanFileName := createCleanFileName chapterTitle in
  let cleanedContent := cleanContentForTTS chapterTitle chapterContent in
  generateAudio outputDir synthesizeSpeech cleanedContent cleanFileName.

(** The loop [for (const chapter of chapters)], pushing each result. *)
Fixpoint generateMultipleChapterAudio (chapters : list Chapter.t) : M (list AudioFile) :=
  match chapters with
  | [] => ret []
  | chapter :: rest =>
      let* audioFile := generateChapterAudio (Chapter.title chapter) (Chapter.content chapter)
                          (Chapter.id chapter) in
      let* audioFiles := generateMultipleChapterAudio rest in
      ret (audioFile :: audioFiles)
  end.
End Chapters.

Definition demo_notes : jstr := of_ascii "notes.txt"%string.

(* ================================================================= *)
(** * Proofs *)

Example split_paragraphs_ex :
  split_paragraphs (of_ascii "a"%string ++ [10%N;10%N;10%N] ++ of_ascii "b"%string ++ [10%N] ++ of_ascii "c"%string)
  = [of_ascii "a"%string; of_ascii "b"%string ++ [10%N] ++ of_ascii "c"%string].
Proof. reflexivity. Qed.

Example split_sentences_ex :
  split_sentences (of_ascii "Hi.  Yes! no?x. "%string)
  = [of_ascii "Hi."%string; of_ascii "Yes!"%string; of_ascii "no?x."%string; []].
Proof. reflexivity. Qed.

(** ** Segmenter: content preservation *)

Lemma nws_app (a b : jstr) : nws (a ++ b) = nws a ++ nws b.
Proof. unfold nws. apply List.filter_app. Qed.

Lemma nws_rev (s : jstr) : nws (rev s) = rev (nws s).
Proof.
  induction s as [|c s IH]; [reflexivity|].
  simpl. rewrite nws_app, IH. unfold nws; simpl.
  destruct (is_ws c); simpl; rewrite ?app_nil_r; reflexivity.
Qed.

Lemma nws_drop_ws (s : jstr) : nws (drop_ws s) = nws s.
Proof.
  induction s as [|c s IH]; [reflexivity|].
  simpl. destruct (is_ws c) eqn:E; [|reflexivity].
  rewrite IH. unfold nws; simpl; now rewrite E.
Qed.

Lemma nws_trim (s : jstr) : nws (trim s) = nws s.
Proof.
  unfold trim. rewrite nws_rev, nws_drop_ws, nws_rev, rev_involutive.
  apply nws_drop_ws.
Qed.

Lemma nws_ws_cons (c : N) (s : jstr) : is_ws c = true -> nws (c :: s) = nws s.
Proof. intros H. unfold nws; simpl. now rewrite H. Qed.

Section SplitContent.
Variable start : option N -> jstr -> bool.
Variable cls : N -> bool.
Hypothesis start_ws : forall prev c s, start prev (c :: s) = true -> is_ws c = true.
Hypothesis cls_ws : forall c, cls c = true -> is_ws c = true.

Lemma split_go_nws (s : jstr) : forall b prev cur,
  (b = true -> cur = []) ->
  nws (concat (split_go start cls b prev cur s)) = nws (rev cur) ++ nws s.
Proof.
  induction s as [|c s IH]; intros b prev cur Hb; simpl.
  - now rewrite app_nil_r, app_nil_r.
  - destruct (b && cls c) eqn:E1.
    + apply andb_prop in E1 as [-> Hc]. rewrite (Hb eq_refl).
      rewrite IH by auto. rewrite (nws_ws_cons c s (cls_ws c Hc)). reflexivity.
    + destruct (start prev (c :: s)) eqn:E2.
      * simpl. rewrite nws_app, IH by auto.
        rewrite (nws_ws_cons c s (start_ws _ _ _ E2)). reflexivity.
      * rewrite IH by discriminate. simpl. rewrite nws_app, <- app_assoc.
        change (c :: s) with ([c] ++ s). now rewrite (nws_app [c] s).
Qed.

Lemma regex_split_nws (s : jstr) :
  nws (concat (regex_split start cls s)) = nws s.
Proof. unfold regex_split. now rewrite split_go_nws by discriminate. Qed.
End SplitContent.

Lemma split_paragraphs_nws (s : jstr) : nws (concat (split_paragraphs s)) = nws s.
Proof.
  apply regex_split_nws.
  - intros p c [|d t] H; simpl in H; [discriminate|].
    apply andb_prop in H as [H1 _]. now apply N.eqb_eq in H1 as ->.
  - intros c H. now apply N.eqb_eq in H as ->.
Qed.

Lemma split_sentences_nws (s : jstr) : nws (concat (split_sentences s)) = nws s.
Proof.
  apply regex_split_nws; [|auto].
  intros [p|] c t H; [|discriminate]. now apply andb_prop in H as [_ H].
Qed.

Lemma truthy_false (s : jstr) : truthy s = false -> s = [].
Proof. now destruct s. Qed.

Lemma content_push (chunks : list jstr) (cur x : jstr) :
  content (chunks ++ [trim cur], x) = content (chunks, cur) ++ nws x.
Proof.
  unfold content; simpl. rewrite concat_app, !nws_app; simpl.
  rewrite app_nil_r, nws_trim. now rewrite <- app_assoc.
Qed.

Lemma content_flush_with (chunks : list jstr) (cur x : jstr) :
  content ((if truthy cur then chunks ++ [trim cur] else chunks), x) =
  content (chunks, cur) ++ nws x.
Proof.
  destruct (truthy cur) eqn:E.
  - apply content_push.
  - apply truthy_false in E; subst. unfold content; simpl.
    rewrite <- app_assoc. reflexivity.
Qed.

Lemma content_flush (chunks : list jstr) (cur : jstr) :
  content ((if truthy cur then chunks ++ [trim cur] else chunks), []) =
  content (chunks, cur).
Proof. rewrite content_flush_with. apply app_nil_r. Qed.

Lemma sentence_step_content (st : chunk_state) (x : jstr) :
  content (sentence_step st x) = content st ++ nws x.
Proof.
  destruct st as [chunks cur]; unfold sentence_step.
  destruct (Nat.ltb _ _).
  - apply content_flush_with.
  - unfold content; simpl. rewrite !nws_app, app_assoc.
    destruct (truthy cur) eqn:E; [|reflexivity].
    destruct cur; [discriminate|]. reflexivity.
Qed.

Lemma fold_sentence_step_content (l : list jstr) (st : chunk_state) :
  content (fold_left sentence_step l st) = content st ++ nws (concat l).
Proof.
  revert st; induction l as [|x l IH]; intros st; simpl.
  - now rewrite app_nil_r.
  - rewrite IH, sentence_step_content, nws_app. symmetry; apply app_assoc.
Qed.

Lemma paragraph_step_content (st : chunk_state) (p : jstr) :
  content (paragraph_step st p) = content st ++ nws p.
Proof.
  destruct st as [chunks cur]; unfold paragraph_step.
  destruct (Nat.ltb _ (length p)).
  - rewrite fold_sentence_step_content, content_flush, split_sentences_nws.
    reflexivity.
  - destruct (Nat.ltb _ _).
    + apply content_push.
    + unfold content; simpl. rewrite !nws_app, app_assoc.
      destruct (truthy cur) eqn:E; [|reflexivity].
      destruct cur; [discriminate|]. reflexivity.
Qed.

Lemma fold_paragraph_step_content (l : list jstr) (st : chunk_state) :
  content (fold_left paragraph_step l st) = content st ++ nws (concat l).
Proof.
  revert st; induction l as [|x l IH]; intros st; simpl.
  - now rewrite app_nil_r.
  - rewrite IH, paragraph_step_content, nws_app. symmetry; apply app_assoc.
Qed.

Lemma splitTextIntoChunks_nws (text : jstr) :
  nws (concat (splitTextIntoChunks text)) = nws text.
Proof.
  unfold splitTextIntoChunks.
  destruct (Nat.leb _ _); [simpl; now rewrite app_nil_r|].
  pose proof (fold_paragraph_step_content (split_paragraphs text) ([], []))
    as H.
  rewrite split_paragraphs_nws in H.
  destruct (fold_left _ _ _) as [chunks cur].
  pose proof (content_flush chunks cur) as F.
  unfold content in F, H; simpl in F, H.
  rewrite app_nil_r in F. rewrite F, H. reflexivity.
Qed.

(** C1: the non-whitespace code units of the concatenated segments are
    exactly those of the input, in the same order: segmentation loses and
    duplicates no non-whitespace character. *)
Theorem splitTextIntoChunks_preserves_content (text : jstr) :
  nws (concat (splitTextIntoChunks text)) = nws text.
Proof. apply splitTextIntoChunks_nws. Qed.

(** ** Segmenter: size bound *)

Lemma length_drop_ws (s : jstr) : (length (drop_ws s) <= length s)%nat.
Proof.
  induction s as [|c s IH]; simpl; [lia|].
  destruct (is_ws c); simpl; lia.
Qed.

Lemma length_trim (s : jstr) : (length (trim s) <= length s)%nat.
Proof.
  unfold trim. rewrite length_rev.
  etransitivity; [apply length_drop_ws|]. rewrite length_rev. apply length_drop_ws.
Qed.

Section SizeBound.
Variable text : jstr.

(** [q] is one sentence of one paragraph of [text], as the two splits of
    the segmenter cut them. *)
Definition sentence_of (q : jstr) : Prop :=
  exists p, In p (split_paragraphs text) /\ In q (split_sentences p).

Definition seg_ok (seg : jstr) : Prop :=
  (length seg <= MAX_CHARS_PER_REQUEST)%nat \/
  exists q, sentence_of q /\ seg = trim q.

Definition cur_ok (cur : jstr) : Prop :=
  (length cur <= MAX_CHARS_PER_REQUEST)%nat \/ sentence_of cur.

Definition state_ok (st : chunk_state) : Prop :=
  Forall seg_ok (fst st) /\ cur_ok (snd st).

Lemma cur_ok_trim (cur : jstr) : cur_ok cur -> seg_ok (trim cur).
Proof.
  intros [H|H].
  - left. pose proof (length_trim cur). lia.
  - right. now exists cur.
Qed.

Lemma state_ok_push (chunks : list jstr) (cur x : jstr) :
  state_ok (chunks, cur) -> cur_ok x -> state_ok (chunks ++ [trim cur], x).
Proof.
  intros [Hc Hcur] Hx. split; [|exact Hx]. simpl.
  apply Forall_app; split; [exact Hc|]. constructor; [|constructor].
  now apply cur_ok_trim.
Qed.

Lemma state_ok_flush (chunks : list jstr) (cur x : jstr) :
  state_ok (chunks, cur) -> cur_ok x ->
  state_ok ((if truthy cur then chunks ++ [trim cur] else chunks), x).
Proof.
  intros H Hx. destruct (truthy cur).
  - now apply state_ok_push.
  - split; [apply H | exact Hx].
Qed.

Lemma sentence_step_ok (p : jstr) (st : chunk_state) (x : jstr) :
  In p (split_paragraphs text) -> In x (split_sentences p) ->
  state_ok st -> state_ok (sentence_step st x).
Proof.
  intros Hp Hx Hst. destruct st as [chunks cur]. unfold sentence_step.
  destruct (Nat.ltb _ _) eqn:E.
  - apply state_ok_flush; [exact Hst|]. right. now exists p.
  - apply Nat.ltb_ge in E. split; [apply Hst|]. left. simpl.
    rewrite !length_app. destruct (truthy cur); simpl; lia.
Qed.

Lemma fold_sentence_step_ok (p : jstr) (l : list jstr) (st : chunk_state) :
  In p (split_paragraphs text) ->
  (forall x, In x l -> In x (split_sentences p)) ->
  state_ok st -> state_ok (fold_left sentence_step l st).
Proof.
  intros Hp. revert st; induction l as [|x l IH]; intros st Hl Hst; [exact Hst|].
  simpl. apply IH; [intros y Hy; apply Hl; now right|].
  apply (sentence_step_ok p); [exact Hp | apply Hl; now left | exact Hst].
Qed.

Lemma paragraph_step_ok (st : chunk_state) (p : jstr) :
  In p (split_paragraphs text) ->
  state_ok st -> state_ok (paragraph_step st p).
Proof.
  intros Hp Hst. destruct st as [chunks cur]. unfold paragraph_step.
  destruct (Nat.ltb _ (length p)) eqn:E.
  - apply (fold_sentence_step_ok p); [exact Hp | auto |].
    apply state_ok_flush; [exact Hst|]. left. simpl. lia.
  - apply Nat.ltb_ge in E. destruct (Nat.ltb _ _) eqn:E2.
    + apply state_ok_push; [exact Hst|]. now left.
    + apply Nat.ltb_ge in E2. split; [apply Hst|]. now left.
Qed.

Lemma fold_paragraph_step_ok (l : list jstr) (st : chunk_state) :
  (forall p, In p l -> In p (split_paragraphs text)) ->
  state_ok st -> state_ok (fold_left paragraph_step l st).
Proof.
  revert st; induction l as [|p l IH]; intros st Hl Hst; [exact Hst|].
  simpl. apply IH; [intros y Hy; apply Hl; now right|].
  apply paragraph_step_ok; [apply Hl; now left | exact Hst].
Qed.
End SizeBound.

(** C2: for an input longer than [MAX_CHARS_PER_REQUEST] (4500), every
    returned segment is at most 4500 code units long, unless it is a single
    sentence (one piece of the sentence split of one piece of the paragraph
    split of the input), trimmed, that is itself longer. *)
Theorem splitTextIntoChunks_size_bound (text : jstr) :
  (MAX_CHARS_PER_REQUEST < length text)%nat ->
  forall seg, In seg (splitTextIntoChunks text) ->
  (length seg <= MAX_CHARS_PER_REQUEST)%nat \/
  exists p q, In p (split_paragraphs text) /\ In q (split_sentences p) /\
              seg = trim q /\ (MAX_CHARS_PER_REQUEST < length q)%nat.
Proof.
  intros Hlen seg Hseg. unfold splitTextIntoChunks in Hseg.
  destruct (Nat.leb _ _) eqn:E; [apply Nat.leb_le in E; lia|].
  assert (Hst : state_ok text (fold_left paragraph_step (split_paragraphs text) ([], []))).
  { apply fold_paragraph_step_ok; [auto|]. split; [constructor|]. left. simpl. lia. }
  destruct (fold_left _ _ _) as [chunks cur].
  assert (Hall : Forall (seg_ok text)
                   (if truthy cur then chunks ++ [trim cur] else chunks)).
  { apply (state_ok_flush text chunks cur []); [exact Hst|]. left. simpl. lia. }
  rewrite List.Forall_forall in Hall. destruct (Hall seg Hseg) as [H|[q [[p [Hp Hq]] ->]]].
  - now left.
  - destruct (Nat.le_gt_cases (length (trim q)) MAX_CHARS_PER_REQUEST) as [H|H].
    + now left.
    + right. exists p, q. repeat split; auto. pose proof (length_trim q). lia.
Qed.

(** ** Segmenter: short inputs and empty segments *)


(** C3 (as stated, refuted): the input [" a "] is short, and the single
    segment returned is [" a "] itself, not its trimmed form ["a"]. *)
Lemma splitTextIntoChunks_short_not_trimmed :
  (length spaced_a <= MAX_CHARS_PER_REQUEST)%nat /\
  splitTextIntoChunks spaced_a = [spaced_a] /\
  splitTextIntoChunks spaced_a <> [trim spaced_a].
Proof. split; [apply Nat.leb_le; reflexivity|]. split; [reflexivity|]. vm_compute. congruence. Qed.

(** C3 (amended): an input of at most 4500 code units is returned as the
    only segment, unchanged. *)
Theorem splitTextIntoChunks_short (text : jstr) :
  (length text <= MAX_CHARS_PER_REQUEST)%nat ->
  splitTextIntoChunks text = [text].
Proof.
  intros H. unfold splitTextIntoChunks. apply Nat.leb_le in H. now rewrite H.
Qed.

Lemma splitTextIntoChunks_short_witness :
  (length spaced_a <= MAX_CHARS_PER_REQUEST)%nat /\
  splitTextIntoChunks spaced_a = [spaced_a].
Proof.
  split; [apply Nat.leb_le; reflexivity|]. apply splitTextIntoChunks_short. apply Nat.leb_le; reflexivity.
Defined.


(** C8 (as stated, refuted): the non-empty input [" "] gives one segment,
    [" "], which is empty after trimming. *)
Lemma splitTextIntoChunks_blank_segment :
  one_space <> [] /\ splitTextIntoChunks one_space = [one_space] /\
  trim one_space = [].
Proof. split; [discriminate|]. split; reflexivity. Qed.

(** A long input can also yield a whitespace-only segment: a
    whitespace-only [currentChunk] passes the [if (currentChunk)] test and
    is pushed trimmed, i.e. empty. *)
Example splitTextIntoChunks_long_blank_segment :
  splitTextIntoChunks ([32%N; 10%N; 10%N] ++ repeat 97%N 4600) =
  [[]; repeat 97%N 4600].
Proof. vm_compute. reflexivity. Qed.

Lemma nws_concat_nonempty (l : list jstr) :
  nws (concat l) <> [] -> exists seg, In seg l /\ nws seg <> [].
Proof.
  induction l as [|x l IH]; simpl; [contradiction|].
  rewrite nws_app. intros H. destruct (nws x) eqn:E.
  - destruct (IH H) as [seg [Hin Hs]]. exists seg. auto.
  - exists x. split; [now left | now rewrite E].
Qed.

Lemma nws_nonempty (text : jstr) :
  (exists c, In c text /\ is_ws c = false) -> nws text <> [].
Proof.
  intros [c [Hin Hc]] H. assert (Hf : In c (nws text)).
  { unfold nws. apply filter_In. now rewrite Hc. }
  rewrite H in Hf. contradiction.
Qed.

(** C8 (amended): for an input with a non-whitespace code unit, some
    returned segment is non-empty after trimming (so at least one segment
    is returned). *)
Theorem splitTextIntoChunks_some_nonblank (text : jstr) :
  (exists c, In c text /\ is_ws c = false) ->
  exists seg, In seg (splitTextIntoChunks text) /\ trim seg <> [].
Proof.
  intros H. apply nws_nonempty in H. rewrite <- splitTextIntoChunks_nws in H.
  destruct (nws_concat_nonempty _ H) as [seg [Hin Hs]].
  exists seg. split; [exact Hin|]. intros Ht. apply Hs.
  now rewrite <- nws_trim, Ht.
Qed.

Lemma splitTextIntoChunks_some_nonblank_witness :
  (exists c, In c spaced_a /\ is_ws c = false) /\
  exists seg, In seg (splitTextIntoChunks spaced_a) /\ trim seg <> [].
Proof.
  assert (H : exists c, In c spaced_a /\ is_ws c = false).
  { exists 97%N. split; [simpl; auto | reflexivity]. }
  split; [exact H|]. exact (splitTextIntoChunks_some_nonblank spaced_a H).
Defined.

(** ** File names *)


(** C10 (code defect): [createCleanFileName] strips leading and trailing
    hyphens before [.substring(0, 100)]; cutting the 101-unit name
    ["a"x99 + "-b"] at 100 leaves a trailing hyphen. *)
Theorem createCleanFileName_trailing_hyphen :
  createCleanFileName long_title = repeat 97%N 99 ++ [45%N].
Proof. vm_compute. reflexivity. Qed.

(** ** The build: running the monadic code *)

Lemma delete_all_delete (ps : list jstr) (m : gmap (list N) (list N)) (q : jstr) :
  delete_all ps (delete q m) = delete q (delete_all ps m).
Proof.
  revert m; induction ps as [|p ps IH]; intros m; simpl; [reflexivity|].
  rewrite delete_delete. apply IH.
Qed.

Lemma delete_all_in (ps : list jstr) (m : gmap (list N) (list N)) (k : jstr) :
  In k ps -> delete_all ps m !! k = None.
Proof.
  revert m; induction ps as [|p ps IH]; intros m H; simpl in *; [contradiction|].
  destruct H as [->|H].
  - rewrite delete_all_delete. apply lookup_delete_eq.
  - now apply IH.
Qed.

Lemma delete_all_notin (ps : list jstr) (m : gmap (list N) (list N)) (k : jstr) :
  ~ In k ps -> delete_all ps m !! k = m !! k.
Proof.
  revert m; induction ps as [|p ps IH]; intros m H; simpl; [reflexivity|].
  apply not_in_cons in H as [Hp H]. rewrite IH by exact H.
  apply lookup_delete_ne. congruence.
Qed.

Section BuildProofs.
Variable outputDir : jstr.
Variable synthesizeSpeech : list event -> jstr -> tts_response.
Variable ffmpeg : gmap (list N) (list N) -> jstr -> jstr -> ffmpeg_outcome.
Variable cleanContentForTTS : jstr -> jstr -> jstr.

Lemma generateAudio_run (text fn : jstr) (w : world) :
  generateAudio outputDir synthesizeSpeech text fn w =
  let h := trace w ++ [EvSynth text] in
  match synthesizeSpeech h text with
  | TtsThrow m => (inl (tts_failed ++ m), mkWorld (files w) h)
  | TtsResult None => (inl (tts_failed ++ no_audio), mkWorld (files w) h)
  | TtsResult (Some a) =>
      let fp := path_join outputDir (fn ++ mp3) in
      (inr (mkAudioFile fp (fn ++ mp3) (length a)),
       mkWorld (<[fp := a]> (files w)) h)
  end.
Proof.
  unfold generateAudio, catch, bind, log, get_trace, throw, writeFileSync,
    statSync, ret; simpl.
  destruct (synthesizeSpeech _ _) as [m|[a|]]; simpl; [reflexivity| |reflexivity].
  now rewrite lookup_insert_eq.
Qed.

Lemma forEach_unlink_run (ps : list jstr) (w : world) :
  forEach (fun f => let* e := existsSync f in if e then unlinkSync f else ret tt) ps w =
  (inr tt, mkWorld (delete_all ps (files w)) (trace w)).
Proof.
  revert w; induction ps as [|p ps IH]; intros [fs tr]; [reflexivity|].
  simpl. unfold bind at 1, bind at 1, existsSync. simpl.
  destruct (fs !! p) eqn:E; simpl.
  - unfold unlinkSync; simpl. rewrite E. apply IH.
  - unfold ret; simpl. rewrite IH. simpl. now rewrite delete_id.
Qed.

Lemma concatenateAudioFiles_run (ps : list jstr) (out : jstr) (w : world) :
  let fs1 := <[concatListPath outputDir := concat_list ps]> (files w) in
  let tr := trace w ++ [EvMerge ps out] in
  concatenateAudioFiles outputDir ffmpeg ps out w =
  match ffmpeg fs1 (concatListPath outputDir) out with
  | FfEnd d =>
      (inr tt, mkWorld (delete_all ps (delete (concatListPath outputDir) (<[out := d]> fs1))) tr)
  | FfError msg partial =>
      (inl (ffmpeg_failed ++ msg),
       mkWorld (delete (concatListPath outputDir)
                  (match partial with Some d => <[out := d]> fs1 | None => fs1 end)) tr)
  end.
Proof.
  unfold concatenateAudioFiles.
  unfold bind at 1, writeFileSync. simpl.
  unfold bind at 1, log. simpl.
  unfold bind at 1, get_files. simpl.
  destruct (ffmpeg _ _ _) as [d|msg partial].
  - unfold bind at 1, writeFileSync. simpl.
    unfold bind at 1, unlinkSync. simpl.
    destruct (decide (out = concatListPath outputDir)) as [->|Hne].
    + rewrite lookup_insert_eq. simpl. unfold bind. rewrite forEach_unlink_run.
      reflexivity.
    + rewrite lookup_insert_ne by congruence. rewrite lookup_insert_eq. simpl.
      unfold bind. rewrite forEach_unlink_run. reflexivity.
  - unfold bind at 1. destruct partial as [d|]; simpl.
    + unfold writeFileSync; simpl. unfold bind, existsSync; simpl.
      destruct (decide (out = concatListPath outputDir)) as [->|Hne].
      * rewrite lookup_insert_eq. simpl. unfold unlinkSync; simpl.
        now rewrite lookup_insert_eq.
      * rewrite lookup_insert_ne by congruence. rewrite lookup_insert_eq. simpl.
        unfold unlinkSync; simpl. rewrite lookup_insert_ne by congruence.
        now rewrite lookup_insert_eq.
    + unfold ret, bind, existsSync; simpl. rewrite lookup_insert_eq. simpl.
      unfold unlinkSync; simpl. now rewrite lookup_insert_eq.
Qed.

Lemma generate_parts_spec (clean : jstr) (chunks : list jstr) :
  forall i w,
  let '(r, w') := generate_parts outputDir synthesizeSpeech clean i chunks w in
  exists n, (n <= length chunks)%nat /\
    trace w' = trace w ++ map EvSynth (firstn n chunks) /\
    (forall k, (forall j, k <> part_path outputDir clean j) -> files w' !! k = files w !! k) /\
    (forall k, is_Some (files w !! k) -> is_Some (files w' !! k)) /\
    match r with
    | inr ps =>
        n = length chunks /\
        ps = map (fun j => part_path outputDir clean (i + j)) (seq 0 n) /\
        (forall j, (j < n)%nat -> is_Some (files w' !! part_path outputDir clean (i + j)))
    | inl e =>
        (0 < n)%nat /\ (exists m, e = tts_failed ++ m) /\
        (forall j, (S j < n)%nat -> is_Some (files w' !! part_path outputDir clean (i + j)))
    end.
Proof.
  induction chunks as [|c cs IH]; intros i w.
  - exists 0%nat. simpl. rewrite app_nil_r. repeat split; auto; intros; lia.
  - simpl generate_parts. unfold bind at 1. rewrite generateAudio_run. simpl.
    destruct (synthesizeSpeech _ _) as [m|[a|]].
    + exists 1%nat. simpl. repeat split; auto; try lia; eauto.
    + set (w1 := mkWorld (<[part_path outputDir clean i := a]> (files w))
                    (trace w ++ [EvSynth c])).
      fold (part_name clean i). fold (part_path outputDir clean i). fold w1.
      specialize (IH (S i) w1).
      destruct (generate_parts _ _ _ _ _ w1) as [r w'] eqn:E.
      destruct IH as [n [Hn [Htr [Hfr [Hps Hr]]]]].
      assert (Hin : is_Some (files w' !! part_path outputDir clean i)).
      { apply Hps. simpl. rewrite lookup_insert_eq. eauto. }
      change (bind ?m ?k w1) with
        (match m w1 with (inl e, w'') => (inl e, w'') | (inr a, w'') => k a w'' end).
      rewrite E. destruct r as [e|ps].
      * exists (S n). split; [simpl; lia|]. split.
        { rewrite Htr. simpl. now rewrite <- app_assoc. }
        split; [|split].
        { intros k Hk. rewrite Hfr by exact Hk. simpl.
          apply lookup_insert_ne. intros Heq. apply (Hk i). now rewrite Heq. }
        { intros k Hk. apply Hps. simpl.
          destruct (decide (part_path outputDir clean i = k)) as [<-|Hne].
          - rewrite lookup_insert_eq. eauto.
          - now rewrite lookup_insert_ne. }
        destruct Hr as [H0 [Hm Hj]]. split; [lia|]. split; [exact Hm|].
        intros [|j] Hj'; [now rewrite Nat.add_0_r|].
        rewrite <- Nat.add_succ_comm. apply Hj. lia.
      * unfold ret. simpl. destruct Hr as [-> [-> Hj]].
        exists (S (length cs)). split; [simpl; lia|]. split.
        { rewrite Htr. simpl. now rewrite <- app_assoc. }
        split; [|split].
        { intros k Hk. rewrite Hfr by exact Hk. simpl.
          apply lookup_insert_ne. intros Heq. apply (Hk i). now rewrite Heq. }
        { intros k Hk. apply Hps. simpl.
          destruct (decide (part_path outputDir clean i = k)) as [<-|Hne].
          - rewrite lookup_insert_eq. eauto.
          - now rewrite lookup_insert_ne. }
        split; [reflexivity|]. split.
        { simpl. rewrite Nat.add_0_r. f_equal. rewrite <- seq_shift, map_map.
          apply map_ext. intros j. f_equal. lia. }
        intros [|j] Hj'; [now rewrite Nat.add_0_r|].
        rewrite <- Nat.add_succ_comm. apply Hj. lia.
    + exists 1%nat. simpl. repeat split; auto; try lia; eauto.
Qed.

Lemma bind_inv {A B} (m : M A) (k : A -> M B) (w w' : world) (r : jstr + B) :
  bind m k w = (r, w') ->
  (exists e, m w = (inl e, w') /\ r = inl e) \/
  (exists a w1, m w = (inr a, w1) /\ k a w1 = (r, w')).
Proof.
  unfold bind. destruct (m w) as [[e|a] w1]; intros H.
  - left. inversion H; subst. eauto.
  - right. eauto.
Qed.

Lemma part_path_ne_final (clean : jstr) (j : nat) :
  part_path outputDir clean j <> final_path outputDir clean.
Proof.
  unfold part_path, final_path, path_join, part_name. intros H.
  apply (f_equal (@length N)) in H. rewrite !length_app in H. simpl in H. lia.
Qed.

Lemma mp3_ne_concatListPath (a : jstr) :
  path_join outputDir (a ++ mp3) <> concatListPath outputDir.
Proof.
  unfold concatListPath, path_join. intros H.
  apply (f_equal (fun l => hd 0%N (rev l))) in H.
  rewrite !rev_app_distr in H. simpl in H. discriminate.
Qed.

Lemma part_path_ne_concatListPath (clean : jstr) (j : nat) :
  part_path outputDir clean j <> concatListPath outputDir.
Proof. apply mp3_ne_concatListPath. Qed.

Lemma final_path_ne_concatListPath (clean : jstr) :
  final_path outputDir clean <> concatListPath outputDir.
Proof. apply mp3_ne_concatListPath. Qed.

Lemma generateChapterAudioWithChunking_long (title content : jstr) (w : world) :
  (MAX_CHARS_PER_REQUEST < length (cleanContentForTTS title content))%nat ->
  generateChapterAudioWithChunking outputDir synthesizeSpeech ffmpeg
    cleanContentForTTS title content w =
  (let* partFiles := generate_parts outputDir synthesizeSpeech (createCleanFileName title) 0
                       (splitTextIntoChunks (cleanContentForTTS title content)) in
   let* _ := concatenateAudioFiles outputDir ffmpeg partFiles
               (final_path outputDir (createCleanFileName title)) in
   let* sz := statSync (final_path outputDir (createCleanFileName title)) in
   ret (mkAudioFile (final_path outputDir (createCleanFileName title))
          (createCleanFileName title ++ mp3) sz)) w.
Proof.
  intros H. unfold generateChapterAudioWithChunking.
  apply Nat.leb_gt in H. now rewrite H.
Qed.

Lemma generate_parts_fail (clean : jstr) (chunks : list jstr) :
  forall i w k m,
  (k < length chunks)%nat ->
  (forall j, (j < k)%nat -> exists a,
      synthesizeSpeech (trace w ++ map EvSynth (firstn (S j) chunks)) (nth j chunks [])
      = TtsResult (Some a)) ->
  tts_failure_message
    (synthesizeSpeech (trace w ++ map EvSynth (firstn (S k) chunks)) (nth k chunks []))
  = Some m ->
  exists w', generate_parts outputDir synthesizeSpeech clean i chunks w =
             (inl (tts_failed ++ m), w') /\
             trace w' = trace w ++ map EvSynth (firstn (S k) chunks).
Proof.
  induction chunks as [|c cs IH]; intros i w k m Hk Hok Hfail; simpl in Hk; [lia|].
  simpl generate_parts. unfold bind at 1. rewrite generateAudio_run. simpl.
  destruct k as [|k].
  - simpl in Hfail. destruct (synthesizeSpeech _ _) as [m'|[a|]]; simpl in Hfail;
      inversion Hfail; subst; eexists; split; reflexivity.
  - destruct (Hok 0%nat ltac:(lia)) as [a Ha]. simpl in Ha. rewrite Ha.
    set (w1 := mkWorld (<[path_join outputDir (part_name clean i ++ mp3) := a]> (files w))
                 (trace w ++ [EvSynth c])).
    destruct (IH (S i) w1 k m) as [w' [E Htr]].
    + lia.
    + intros j Hj. destruct (Hok (S j) ltac:(lia)) as [a' Ha'].
      exists a'. simpl. rewrite <- app_assoc. exact Ha'.
    + simpl. rewrite <- app_assoc. exact Hfail.
    + exists w'. change (bind ?m ?k w1) with
        (match m w1 with (inl e, w'') => (inl e, w'') | (inr a, w'') => k a w'' end).
      rewrite E. split; [reflexivity|]. rewrite Htr. simpl.
      now rewrite <- app_assoc.
Qed.

(** C6: at or under the ceiling, the build synthesizes once, on the
    cleaned text, and never runs the merge. *)
Theorem build_direct_single_synthesis (title content : jstr) (w : world) :
  (length (cleanContentForTTS title content) <= MAX_CHARS_PER_REQUEST)%nat ->
  trace (snd (generateChapterAudioWithChunking outputDir synthesizeSpeech ffmpeg
                cleanContentForTTS title content w)) =
  trace w ++ [EvSynth (cleanContentForTTS title content)].
Proof.
  intros H. unfold generateChapterAudioWithChunking.
  apply Nat.leb_le in H. rewrite H. rewrite generateAudio_run. cbv zeta.
  destruct (synthesizeSpeech _ _) as [m|[a|]]; reflexivity.
Qed.

Lemma bind_eq {A B} (m : M A) (k : A -> M B) (w w1 : world) (r : jstr + A) :
  m w = (r, w1) ->
  bind m k w = match r with inl e => (inl e, w1) | inr a => k a w1 end.
Proof. unfold bind. now intros ->. Qed.

(** The chunked path, step by step: the part loop, the merge, the final
    [statSync]. *)
Lemma build_long_cases (title content : jstr) (w : world) :
  (MAX_CHARS_PER_REQUEST < length (cleanContentForTTS title content))%nat ->
  let clean := createCleanFileName title in
  let fin := final_path outputDir clean in
  generateChapterAudioWithChunking outputDir synthesizeSpeech ffmpeg
    cleanContentForTTS title content w =
  match generate_parts outputDir synthesizeSpeech clean 0
          (splitTextIntoChunks (cleanContentForTTS title content)) w with
  | (inl e, w1) => (inl e, w1)
  | (inr ps, w1) =>
      match concatenateAudioFiles outputDir ffmpeg ps fin w1 with
      | (inl e, w2) => (inl e, w2)
      | (inr _, w2) =>
          match files w2 !! fin with
          | Some d => (inr (mkAudioFile fin (clean ++ mp3) (length d)), w2)
          | None => (inl (enoent fin), w2)
          end
      end
  end.
Proof.
  intros H clean fin. rewrite generateChapterAudioWithChunking_long by exact H.
  destruct (generate_parts _ _ _ _ _ w) as [[e|ps] w1] eqn:E1;
    rewrite (bind_eq _ _ _ _ _ E1); [reflexivity|].
  destruct (concatenateAudioFiles _ _ _ _ w1) as [[e|u] w2] eqn:E2;
    rewrite (bind_eq _ _ _ _ _ E2); [reflexivity|].
  unfold bind, statSync, ret. subst clean fin.
  destruct (files w2 !! final_path outputDir (createCleanFileName title)); reflexivity.
Qed.

(** C5: after a successful chunked build, the part files given to the
    merge and the concat list are gone, and the final artifact exists at
    the returned path.  The parts are the files [<name>-part<i+1>.mp3] of
    the segments, and the trace is one synthesis per segment, then one
    merge. *)
Theorem build_success_cleanup (title content : jstr) (w : world) (af : AudioFile) :
  (MAX_CHARS_PER_REQUEST < length (cleanContentForTTS title content))%nat ->
  fst (generateChapterAudioWithChunking outputDir synthesizeSpeech ffmpeg
         cleanContentForTTS title content w) = inr af ->
  exists w' ps,
    snd (generateChapterAudioWithChunking outputDir synthesizeSpeech ffmpeg
           cleanContentForTTS title content w) = w' /\
    filePath af = final_path outputDir (createCleanFileName title) /\
    is_Some (files w' !! final_path outputDir (createCleanFileName title)) /\
    files w' !! concatListPath outputDir = None /\
    ps = map (part_path outputDir (createCleanFileName title))
           (seq 0 (length (splitTextIntoChunks (cleanContentForTTS title content)))) /\
    (forall p, In p ps -> files w' !! p = None) /\
    trace w' = trace w ++ map EvSynth (splitTextIntoChunks (cleanContentForTTS title content))
               ++ [EvMerge ps (final_path outputDir (createCleanFileName title))].
Proof.
  intros Hlen Hok. rewrite build_long_cases in * by exact Hlen. cbv zeta in *.
  set (clean := createCleanFileName title) in *.
  set (segs := splitTextIntoChunks (cleanContentForTTS title content)) in *.
  set (fin := final_path outputDir clean) in *.
  pose proof (generate_parts_spec clean segs 0 w) as Hgp.
  destruct (generate_parts _ _ _ _ _ w) as [[e|ps] w1]; [discriminate|].
  destruct Hgp as [n [Hn [Htr1 [_ [_ [-> [Hps _]]]]]]]. simpl in Hps.
  pose proof (concatenateAudioFiles_run ps fin w1) as Hc. cbv zeta in Hc.
  destruct (concatenateAudioFiles _ _ _ _ w1) as [[e|u] w2]; [discriminate|].
  destruct (ffmpeg _ _ _) as [d|msg partial]; [|discriminate].
  injection Hc as _ ->.
  assert (Hfin : ~ In fin ps).
  { rewrite Hps. intros Hin. apply in_map_iff in Hin as [j [Hj _]].
    now apply (part_path_ne_final clean j). }
  assert (Hcl : fin <> concatListPath outputDir) by apply final_path_ne_concatListPath.
  simpl in Hok |- *. rewrite delete_all_notin in Hok |- * by exact Hfin.
  rewrite lookup_delete_ne in Hok |- * by congruence.
  rewrite lookup_insert_eq in Hok |- *. injection Hok as <-.
  eexists; exists ps. split; [reflexivity|]. simpl.
  split; [reflexivity|]. split.
  { simpl. rewrite delete_all_notin by exact Hfin.
    rewrite lookup_delete_ne by congruence. rewrite lookup_insert_eq. eauto. }
  split.
  { destruct (List.in_dec (List.list_eq_dec N.eq_dec) (concatListPath outputDir) ps) as [Hin|Hin].
    - now apply delete_all_in.
    - rewrite delete_all_notin by exact Hin. apply lookup_delete_eq. }
  split; [now rewrite Hps|]. split.
  { intros p Hp. now apply delete_all_in. }
  rewrite Htr1, firstn_all. now rewrite <- app_assoc.
Qed.

Lemma concatenateAudioFiles_trace (ps : list jstr) (out : jstr) (w : world) :
  trace (snd (concatenateAudioFiles outputDir ffmpeg ps out w)) = trace w ++ [EvMerge ps out].
Proof.
  rewrite concatenateAudioFiles_run. cbv zeta.
  destruct (ffmpeg _ _ _); reflexivity.
Qed.

(** C7 (amended): over the ceiling, the synthesis calls are on segments
    [0 .. n-1] in ascending order, one call per segment, for some [n] up to
    the number of segments; the merge, if reached, comes after all of
    them; and a successful build made exactly one call per segment.  (A
    failing call ends the loop, so [n] can be smaller.) *)
Theorem build_synthesis_in_order (title content : jstr) (w : world) :
  (MAX_CHARS_PER_REQUEST < length (cleanContentForTTS title content))%nat ->
  exists n,
    (n <= length (splitTextIntoChunks (cleanContentForTTS title content)))%nat /\
    (trace (snd (generateChapterAudioWithChunking outputDir synthesizeSpeech ffmpeg
                   cleanContentForTTS title content w)) =
       trace w ++ map EvSynth
                    (firstn n (splitTextIntoChunks (cleanContentForTTS title content))) \/
     (n = length (splitTextIntoChunks (cleanContentForTTS title content)) /\
      exists ps,
        trace (snd (generateChapterAudioWithChunking outputDir synthesizeSpeech ffmpeg
                      cleanContentForTTS title content w)) =
          trace w ++ map EvSynth (splitTextIntoChunks (cleanContentForTTS title content))
          ++ [EvMerge ps (final_path outputDir (createCleanFileName title))])) /\
    (forall af, fst (generateChapterAudioWithChunking outputDir synthesizeSpeech ffmpeg
                       cleanContentForTTS title content w) = inr af ->
                n = length (splitTextIntoChunks (cleanContentForTTS title content))).
Proof.
  intros Hlen. rewrite build_long_cases by exact Hlen. cbv zeta.
  set (clean := createCleanFileName title).
  set (segs := splitTextIntoChunks (cleanContentForTTS title content)).
  set (fin := final_path outputDir clean).
  pose proof (generate_parts_spec clean segs 0 w) as Hgp.
  destruct (generate_parts _ _ _ _ _ w) as [[e|ps] w1].
  - destruct Hgp as [n [Hn [Htr1 _]]]. exists n. split; [exact Hn|].
    split; [now left|]. intros af H; discriminate.
  - destruct Hgp as [n [Hn [Htr1 [_ [_ [-> _]]]]]].
    exists (length segs). split; [lia|].
    pose proof (concatenateAudioFiles_trace ps fin w1) as Hc.
    destruct (concatenateAudioFiles _ _ _ _ w1) as [[e|u] w2]; simpl in Hc.
    + split; [|intros; reflexivity]. right. split; [reflexivity|]. exists ps.
      simpl. rewrite Hc, Htr1, firstn_all. now rewrite <- app_assoc.
    + split; [|intros; reflexivity]. right. split; [reflexivity|]. exists ps.
      destruct (files w2 !! fin); simpl;
        rewrite Hc, Htr1, firstn_all; now rewrite <- app_assoc.
Qed.

(** C4 (amended): a failed chunked build removes no part file.  Either a
    synthesis call failed: the calls were on segments [0 .. n-1], the last
    one failed, and the part files of segments [0 .. n-2] are still on
    disk; or the merge failed: the concat list is removed, and every part
    file given to the merge is still on disk. *)
Theorem build_failure_leaves_parts (title content : jstr) (w : world) (e : jstr) :
  (MAX_CHARS_PER_REQUEST < length (cleanContentForTTS title content))%nat ->
  fst (generateChapterAudioWithChunking outputDir synthesizeSpeech ffmpeg
         cleanContentForTTS title content w) = inl e ->
  (exists n,
     (0 < n <= length (splitTextIntoChunks (cleanContentForTTS title content)))%nat /\
     trace (snd (generateChapterAudioWithChunking outputDir synthesizeSpeech ffmpeg
                   cleanContentForTTS title content w)) =
       trace w ++ map EvSynth
                    (firstn n (splitTextIntoChunks (cleanContentForTTS title content))) /\
     forall j, (S j < n)%nat ->
       is_Some (files (snd (generateChapterAudioWithChunking outputDir synthesizeSpeech
                             ffmpeg cleanContentForTTS title content w))
                !! part_path outputDir (createCleanFileName title) j)) \/
  (exists ps,
     trace (snd (generateChapterAudioWithChunking outputDir synthesizeSpeech ffmpeg
                   cleanContentForTTS title content w)) =
       trace w ++ map EvSynth (splitTextIntoChunks (cleanContentForTTS title content))
       ++ [EvMerge ps (final_path outputDir (createCleanFileName title))] /\
     files (snd (generateChapterAudioWithChunking outputDir synthesizeSpeech ffmpeg
                   cleanContentForTTS title content w)) !! concatListPath outputDir = None /\
     forall p, In p ps ->
       is_Some (files (snd (generateChapterAudioWithChunking outputDir synthesizeSpeech
                             ffmpeg cleanContentForTTS title content w)) !! p)).
Proof.
  intros Hlen Herr. rewrite build_long_cases in * by exact Hlen. cbv zeta in *.
  set (clean := createCleanFileName title) in *.
  set (segs := splitTextIntoChunks (cleanContentForTTS title content)) in *.
  set (fin := final_path outputDir clean) in *.
  pose proof (generate_parts_spec clean segs 0 w) as Hgp.
  destruct (generate_parts _ _ _ _ _ w) as [[e1|ps] w1].
  - destruct Hgp as [n [Hn [Htr1 [_ [_ [H0 [_ Hj]]]]]]].
    left. exists n. split; [lia|]. split; [exact Htr1|]. exact Hj.
  - destruct Hgp as [n [Hn [Htr1 [_ [_ [-> [Hps Hj]]]]]]]. simpl in Hps, Hj.
    pose proof (concatenateAudioFiles_run ps fin w1) as Hc. cbv zeta in Hc.
    assert (Hfin : ~ In fin ps).
    { rewrite Hps. intros Hin. apply in_map_iff in Hin as [j [Hj' _]].
      now apply (part_path_ne_final clean j). }
    assert (Hcl : fin <> concatListPath outputDir) by apply final_path_ne_concatListPath.
    destruct (concatenateAudioFiles _ _ _ _ w1) as [[e2|u] w2].
    + destruct (ffmpeg _ _ _) as [d|msg partial]; [discriminate|].
      injection Hc as _ ->. right. exists ps. simpl. split.
      { rewrite Htr1, firstn_all. now rewrite <- app_assoc. }
      split; [apply lookup_delete_eq|].
      intros p Hp. pose proof Hp as Hp'. rewrite Hps in Hp'.
      apply in_map_iff in Hp' as [j [<- Hjs]]. apply in_seq in Hjs.
      rewrite lookup_delete_ne by (apply not_eq_sym, part_path_ne_concatListPath).
      assert (Hw1 : is_Some (files w1 !! part_path outputDir clean j)) by (apply Hj; lia).
      destruct partial as [d|].
      * rewrite lookup_insert_ne by (apply not_eq_sym, part_path_ne_final).
        rewrite lookup_insert_ne by (apply not_eq_sym, part_path_ne_concatListPath).
        exact Hw1.
      * rewrite lookup_insert_ne by (apply not_eq_sym, part_path_ne_concatListPath).
        exact Hw1.
    + destruct (ffmpeg _ _ _) as [d|msg partial]; [|discriminate].
      injection Hc as _ ->. simpl in Herr.
      rewrite delete_all_notin in Herr by exact Hfin.
      rewrite lookup_delete_ne in Herr by congruence.
      rewrite lookup_insert_eq in Herr. discriminate.
Qed.

(** C9 (amended): when segment [k] is the first whose synthesis fails
    (the service throws with message [m], or returns no audio, [m] being
    then "No audio content received from TTS service"), the build fails
    right there with the error "TTS generation failed: " followed by [m];
    no later segment is synthesized and the merge is not run.  The error
    does not carry [k]. *)
Theorem build_synthesis_failure (title content : jstr) (w : world) (k : nat) (m : jstr) :
  (MAX_CHARS_PER_REQUEST < length (cleanContentForTTS title content))%nat ->
  (k < length (splitTextIntoChunks (cleanContentForTTS title content)))%nat ->
  (forall j, (j < k)%nat -> exists a,
      synthesizeSpeech
        (trace w ++ map EvSynth
                      (firstn (S j) (splitTextIntoChunks (cleanContentForTTS title content))))
        (nth j (splitTextIntoChunks (cleanContentForTTS title content)) [])
      = TtsResult (Some a)) ->
  tts_failure_message
    (synthesizeSpeech
       (trace w ++ map EvSynth
                     (firstn (S k) (splitTextIntoChunks (cleanContentForTTS title content))))
       (nth k (splitTextIntoChunks (cleanContentForTTS title content)) []))
  = Some m ->
  fst (generateChapterAudioWithChunking outputDir synthesizeSpeech ffmpeg
         cleanContentForTTS title content w) = inl (tts_failed ++ m) /\
  trace (snd (generateChapterAudioWithChunking outputDir synthesizeSpeech ffmpeg
                cleanContentForTTS title content w)) =
    trace w ++ map EvSynth
                 (firstn (S k) (splitTextIntoChunks (cleanContentForTTS title content))).
Proof.
  intros Hlen Hk Hok Hfail. rewrite build_long_cases by exact Hlen. cbv zeta.
  destruct (generate_parts_fail (createCleanFileName title) _ 0 w k m Hk Hok Hfail)
    as [w' [E Htr]].
  rewrite E. split; [reflexivity | exact Htr].
Qed.
End BuildProofs.

(** ** The build on concrete inputs *)

(** C4 (as stated, refuted): when the second of two synthesis calls fails,
    the part file of the first segment stays on disk; when the merge fails,
    the part files stay on disk too. *)
Lemma build_failure_keeps_part_file :
  fst (demo_run (tts_fail_at 1) ff_ok demo_text) = inl (tts_failed ++ boom) /\
  is_Some (files (snd (demo_run (tts_fail_at 1) ff_ok demo_text)) !! part_path demo_dir demo_name 0) /\
  fst (demo_run tts_ok ff_fail demo_text) = inl (ffmpeg_failed ++ boom) /\
  is_Some (files (snd (demo_run tts_ok ff_fail demo_text)) !! part_path demo_dir demo_name 0) /\
  is_Some (files (snd (demo_run tts_ok ff_fail demo_text)) !! part_path demo_dir demo_name 1).
Proof.
  split; [vm_compute; reflexivity|]. split; [vm_compute; eexists; reflexivity|].
  split; [vm_compute; reflexivity|]. split; vm_compute; eexists; reflexivity.
Qed.

(** C7 (as stated, refuted): the input has two segments, and when the first
    synthesis call fails the service is called once. *)
Lemma build_failure_stops_synthesis :
  length (splitTextIntoChunks demo_text) = 2%nat /\
  trace (snd (demo_run (tts_fail_at 0) ff_ok demo_text)) = [EvSynth (repeat 97%N 3000)].
Proof. split; vm_compute; reflexivity. Qed.

(** C9 (as stated, refuted): a failure on segment 0 and a failure on
    segment 1 with the same service message give the same error, which
    names no segment. *)
Lemma build_synthesis_error_without_index :
  trace (snd (demo_run (tts_fail_at 0) ff_ok demo_text)) = [EvSynth (repeat 97%N 3000)] /\
  trace (snd (demo_run (tts_fail_at 1) ff_ok demo_text)) =
    [EvSynth (repeat 97%N 3000); EvSynth (repeat 98%N 3000)] /\
  fst (demo_run (tts_fail_at 0) ff_ok demo_text) = inl (tts_failed ++ boom) /\
  fst (demo_run (tts_fail_at 1) ff_ok demo_text) = inl (tts_failed ++ boom).
Proof.
  split; [vm_compute; reflexivity|]. split; [vm_compute; reflexivity|].
  split; vm_compute; reflexivity.
Qed.

Lemma demo_text_long : (MAX_CHARS_PER_REQUEST < length demo_text)%nat.
Proof. apply Nat.ltb_lt. vm_compute. reflexivity. Qed.

Lemma splitTextIntoChunks_size_bound_witness :
  (MAX_CHARS_PER_REQUEST < length demo_text)%nat /\
  forall seg, In seg (splitTextIntoChunks demo_text) ->
  (length seg <= MAX_CHARS_PER_REQUEST)%nat \/
  exists p q, In p (split_paragraphs demo_text) /\ In q (split_sentences p) /\
              seg = trim q /\ (MAX_CHARS_PER_REQUEST < length q)%nat.
Proof.
  split; [exact demo_text_long|]. exact (splitTextIntoChunks_size_bound demo_text demo_text_long).
Defined.

Lemma build_direct_single_synthesis_witness :
  (length (demo_clean demo_title demo_short) <= MAX_CHARS_PER_REQUEST)%nat /\
  trace (snd (demo_run tts_ok ff_ok demo_short)) = trace w0 ++ [EvSynth demo_short].
Proof.
  assert (H : (length (demo_clean demo_title demo_short) <= MAX_CHARS_PER_REQUEST)%nat).
  { apply Nat.leb_le. vm_compute. reflexivity. }
  split; [exact H|].
  exact (build_direct_single_synthesis demo_dir tts_ok ff_ok demo_clean demo_title demo_short w0 H).
Defined.

Lemma build_success_cleanup_witness :
  (MAX_CHARS_PER_REQUEST < length (demo_clean demo_title demo_text))%nat /\
  fst (demo_run tts_ok ff_ok demo_text) = inr demo_af /\
  exists w' ps,
    snd (demo_run tts_ok ff_ok demo_text) = w' /\
    filePath demo_af = demo_final /\
    is_Some (files w' !! demo_final) /\
    files w' !! concatListPath demo_dir = None /\
    ps = map (part_path demo_dir demo_name) (seq 0 (length (splitTextIntoChunks demo_text))) /\
    (forall p, In p ps -> files w' !! p = None) /\
    trace w' = trace w0 ++ map EvSynth (splitTextIntoChunks demo_text)
               ++ [EvMerge ps demo_final].
Proof.
  assert (H2 : fst (demo_run tts_ok ff_ok demo_text) = inr demo_af).
  { vm_compute. reflexivity. }
  split; [exact demo_text_long|]. split; [exact H2|].
  exact (build_success_cleanup demo_dir tts_ok ff_ok demo_clean demo_title demo_text w0
           demo_af demo_text_long H2).
Defined.

Lemma build_synthesis_in_order_witness :
  (MAX_CHARS_PER_REQUEST < length (demo_clean demo_title demo_text))%nat /\
  exists n,
    (n <= length (splitTextIntoChunks demo_text))%nat /\
    (trace (snd (demo_run tts_ok ff_ok demo_text)) =
       trace w0 ++ map EvSynth (firstn n (splitTextIntoChunks demo_text)) \/
     (n = length (splitTextIntoChunks demo_text) /\
      exists ps, trace (snd (demo_run tts_ok ff_ok demo_text)) =
        trace w0 ++ map EvSynth (splitTextIntoChunks demo_text) ++ [EvMerge ps demo_final])) /\
    (forall af, fst (demo_run tts_ok ff_ok demo_text) = inr af ->
                n = length (splitTextIntoChunks demo_text)).
Proof.
  split; [exact demo_text_long|].
  exact (build_synthesis_in_order demo_dir tts_ok ff_ok demo_clean demo_title demo_text w0
           demo_text_long).
Defined.

Lemma build_failure_leaves_parts_witness :
  (MAX_CHARS_PER_REQUEST < length (demo_clean demo_title demo_text))%nat /\
  fst (demo_run tts_ok ff_fail demo_text) = inl (ffmpeg_failed ++ boom) /\
  ((exists n,
      (0 < n <= length (splitTextIntoChunks demo_text))%nat /\
      trace (snd (demo_run tts_ok ff_fail demo_text)) =
        trace w0 ++ map EvSynth (firstn n (splitTextIntoChunks demo_text)) /\
      forall j, (S j < n)%nat ->
        is_Some (files (snd (demo_run tts_ok ff_fail demo_text)) !! part_path demo_dir demo_name j)) \/
   (exists ps,
      trace (snd (demo_run tts_ok ff_fail demo_text)) =
        trace w0 ++ map EvSynth (splitTextIntoChunks demo_text) ++ [EvMerge ps demo_final] /\
      files (snd (demo_run tts_ok ff_fail demo_text)) !! concatListPath demo_dir = None /\
      forall p, In p ps -> is_Some (files (snd (demo_run tts_ok ff_fail demo_text)) !! p))).
Proof.
  assert (H2 : fst (demo_run tts_ok ff_fail demo_text) = inl (ffmpeg_failed ++ boom)).
  { vm_compute. reflexivity. }
  split; [exact demo_text_long|]. split; [exact H2|].
  exact (build_failure_leaves_parts demo_dir tts_ok ff_fail demo_clean demo_title demo_text w0
           (ffmpeg_failed ++ boom) demo_text_long H2).
Defined.

Lemma build_synthesis_failure_witness :
  (MAX_CHARS_PER_REQUEST < length (demo_clean demo_title demo_text))%nat /\
  (1 < length (splitTextIntoChunks demo_text))%nat /\
  tts_failure_message
    (tts_fail_at 1 (trace w0 ++ map EvSynth (firstn 2 (splitTextIntoChunks demo_text)))
       (nth 1 (splitTextIntoChunks demo_text) [])) = Some boom /\
  fst (demo_run (tts_fail_at 1) ff_ok demo_text) = inl (tts_failed ++ boom) /\
  trace (snd (demo_run (tts_fail_at 1) ff_ok demo_text)) =
    trace w0 ++ map EvSynth (firstn 2 (splitTextIntoChunks demo_text)).
Proof.
  assert (Hk : (1 < length (splitTextIntoChunks demo_text))%nat).
  { apply Nat.ltb_lt. vm_compute. reflexivity. }
  assert (Hok : forall j, (j < 1)%nat -> exists a,
            tts_fail_at 1 (trace w0 ++ map EvSynth (firstn (S j) (splitTextIntoChunks demo_text)))
              (nth j (splitTextIntoChunks demo_text) []) = TtsResult (Some a)).
  { intros j Hj. assert (j = 0%nat) as -> by lia. exists [1%N]. vm_compute. reflexivity. }
  assert (Hf : tts_failure_message
                 (tts_fail_at 1 (trace w0 ++ map EvSynth (firstn 2 (splitTextIntoChunks demo_text)))
                    (nth 1 (splitTextIntoChunks demo_text) [])) = Some boom).
  { vm_compute. reflexivity. }
  split; [exact demo_text_long|]. split; [exact Hk|]. split; [exact Hf|].
  exact (build_synthesis_failure demo_dir (tts_fail_at 1) ff_ok demo_clean demo_title demo_text
           w0 1 boom demo_text_long Hk Hok Hf).
Defined.


(** ** Lists: contiguous pieces *)

Lemma infix_widen {A} (s u p q t : list A) :
  s = p ++ u ++ q -> (exists a b, u = a ++ t ++ b) -> exists a b, s = a ++ t ++ b.
Proof.
  intros -> [a [b ->]]. exists (p ++ a), (b ++ q). now rewrite !app_assoc.
Qed.

Lemma span_app (p : N -> bool) (s a b : jstr) : span p s = (a, b) -> s = a ++ b.
Proof.
  revert a b; induction s as [|c t IH]; intros a b H; simpl in H.
  - now inversion H.
  - destruct (p c).
    + destruct (span p t) as [a' b'] eqn:E. inversion H; subst. simpl. f_equal. now apply IH.
    + now inversion H.
Qed.

Lemma span_all (p : N -> bool) (s a b : jstr) : span p s = (a, b) -> forall c, In c a -> p c = true.
Proof.
  revert a b; induction s as [|c t IH]; intros a b H x Hx; simpl in H.
  - inversion H; subst. destruct Hx.
  - destruct (p c) eqn:Ep.
    + destruct (span p t) as [a' b'] eqn:E. inversion H; subst.
      destruct Hx as [<-|Hx]; [exact Ep|]. eapply IH; eauto.
    + inversion H; subst. destruct Hx.
Qed.

(** ** [String.prototype.trim] *)

Lemma drop_ws_suffix (s : jstr) : exists p, s = p ++ drop_ws s.
Proof.
  induction s as [|c t [p Hp]]; simpl; [now exists []|].
  destruct (is_ws c); [exists (c :: p); simpl; now f_equal | now exists []].
Qed.

Lemma drop_ws_head (s : jstr) :
  drop_ws s = [] \/ exists c t, drop_ws s = c :: t /\ is_ws c = false.
Proof.
  induction s as [|c t IH]; simpl; [now left|].
  destruct (is_ws c) eqn:E; [exact IH|right; eauto].
Qed.

Lemma drop_ws_fixed (s : jstr) :
  (s = [] \/ exists c t, s = c :: t /\ is_ws c = false) -> drop_ws s = s.
Proof. intros [->|[c [t [-> H]]]]; simpl; [reflexivity|now rewrite H]. Qed.

Lemma drop_ws_idem (s : jstr) : drop_ws (drop_ws s) = drop_ws s.
Proof. apply drop_ws_fixed, drop_ws_head. Qed.

Lemma trim_idem (s : jstr) : trim (trim s) = trim s.
Proof.
  unfold trim. set (u := drop_ws s). set (v := drop_ws (rev u)).
  assert (Hv : drop_ws (rev v) = rev v).
  { destruct (drop_ws_suffix (rev u)) as [p Hp]. fold v in Hp.
    apply (f_equal (@rev N)) in Hp. rewrite rev_involutive, rev_app_distr in Hp.
    destruct (rev v) as [|c t] eqn:Ev; [reflexivity|].
    apply drop_ws_fixed. right. exists c, t. split; [reflexivity|].
    destruct (drop_ws_head s) as [Hu|[c' [t' [Hu Hc]]]]; fold u in Hu.
    - rewrite Hu in Hp. simpl in Hp. discriminate.
    - rewrite Hu in Hp. simpl in Hp. now inversion Hp; subst. }
  rewrite Hv, rev_involutive. subst v. now rewrite drop_ws_idem.
Qed.

Lemma trim_infix (s : jstr) : exists p q, s = p ++ trim s ++ q.
Proof.
  unfold trim. destruct (drop_ws_suffix s) as [p Hp].
  destruct (drop_ws_suffix (rev (drop_ws s))) as [q Hq].
  exists p, (rev q). rewrite Hp at 1. f_equal.
  apply (f_equal (@rev N)) in Hq. rewrite rev_involutive, rev_app_distr in Hq.
  exact Hq.
Qed.

Lemma in_trim (s : jstr) (c : N) : In c (trim s) -> In c s.
Proof.
  intros H. destruct (trim_infix s) as [p [q Hs]]. rewrite Hs.
  apply in_or_app. right. apply in_or_app. now left.
Qed.


(** ** File names *)

Fixpoint has_pair (x : N) (s : jstr) : bool :=
  match s with
  | [] => false
  | a :: t => match t with b :: _ => (a =? x)%N && (b =? x)%N | [] => false end || has_pair x t
  end.

Lemma has_pair_infix (x : N) (s : jstr) :
  (exists a b, s = a ++ [x; x] ++ b) -> has_pair x s = true.
Proof.
  intros [a [b ->]]. induction a as [|y a IH]; simpl in *.
  - now rewrite N.eqb_refl.
  - rewrite IH. destruct (a ++ x :: x :: b); apply orb_true_r.
Qed.

Lemma collapse_runs_Forall (Q : N -> Prop) (p : N -> bool) (r : N) (s : jstr) (b : bool) :
  Q r -> (forall c, In c s -> p c = false -> Q c) -> Forall Q (collapse_runs p r b s).
Proof.
  revert b; induction s as [|c t IH]; intros b Hr Hs; simpl; [constructor|].
  assert (Ht : forall c', In c' t -> p c' = false -> Q c') by (intros; apply Hs; simpl; auto).
  destruct (p c) eqn:E.
  - destruct b; [apply IH; auto|]. constructor; [exact Hr|]. apply IH; auto.
  - constructor; [apply Hs; simpl; auto|]. apply IH; auto.
Qed.

Lemma collapse_hyphen_no_pair (s : jstr) : forall b,
  has_pair 45 (collapse_runs is_hyphen 45 b s) = false /\
  (b = true -> hd_error (collapse_runs is_hyphen 45 b s) <> Some 45%N).
Proof.
  induction s as [|c t IH]; intros b; simpl; [split; [reflexivity|discriminate]|].
  destruct (is_hyphen c) eqn:Ec.
  - destruct b; [apply IH|]. split; [|discriminate].
    destruct (IH true) as [H1 H2]. simpl. rewrite H1, orb_false_r.
    destruct (collapse_runs is_hyphen 45 true t) as [|d u] eqn:E; [reflexivity|].
    simpl in H2 |- *. destruct (N.eqb_spec d 45); [subst; now destruct H2|reflexivity].
  - destruct (IH false) as [H1 _]. split.
    + simpl. rewrite H1, orb_false_r. unfold is_hyphen in Ec.
      destruct (collapse_runs _ _ false t); [reflexivity|]. now rewrite Ec.
    + intros _. simpl. intros Hc. injection Hc as ->. discriminate.
Qed.

Lemma strip_hyphens_infix (s : jstr) : exists p q, s = p ++ strip_hyphens s ++ q.
Proof.
  unfold strip_hyphens.
  assert (H1 : exists p, s = p ++ match s with c :: t => if is_hyphen c then t else s | [] => [] end).
  { destruct s as [|c t]; [now exists []|]. simpl. destruct (is_hyphen c); [now exists [c]|now exists []]. }
  destruct H1 as [p Hp]. set (s1 := match s with c :: t => _ | [] => [] end) in *.
  exists p. destruct (rev s1) as [|c t] eqn:E.
  - exists []. rewrite app_nil_r. apply (f_equal (@rev N)) in E.
    rewrite rev_involutive in E. simpl in E. rewrite E, app_nil_r in Hp. exact Hp.
  - apply (f_equal (@rev N)) in E. rewrite rev_involutive in E. simpl in E.
    destruct (is_hyphen c); [exists [c]; rewrite E in Hp; now rewrite Hp, app_assoc|exists []; now rewrite app_nil_r].
Qed.

Lemma strip_hyphens_head (s : jstr) :
  has_pair 45 s = false -> hd_error (strip_hyphens s) <> Some 45%N.
Proof.
  intros Hs. unfold strip_hyphens.
  set (s1 := match s with c :: t => if is_hyphen c then t else s | [] => [] end).
  assert (H1 : hd_error s1 <> Some 45%N).
  { subst s1. destruct s as [|c t]; [discriminate|].
    unfold is_hyphen. destruct (N.eqb_spec c 45) as [->|Hc].
    - destruct t as [|d u]; [discriminate|]. simpl in Hs |- *.
      destruct (N.eqb_spec d 45); [subst; simpl in Hs; discriminate|congruence].
    - simpl. congruence. }
  destruct (rev s1) as [|c t] eqn:E; [discriminate|].
  destruct (is_hyphen c); [|exact H1].
  apply (f_equal (@rev N)) in E. rewrite rev_involutive in E. simpl in E.
  rewrite E in H1. destruct (rev t); [discriminate|exact H1].
Qed.

Lemma firstn_infix {A} (n : nat) (s : list A) : exists q, s = firstn n s ++ q.
Proof. exists (skipn n s). symmetry. apply firstn_skipn. Qed.

Lemma in_infix {A} (s u p q : list A) (c : A) : s = p ++ u ++ q -> In c u -> In c s.
Proof. intros -> H. apply in_or_app. right. apply in_or_app. now left. Qed.

Lemma createCleanFileName_pipeline (title : jstr) :
  exists p q, collapse_runs is_hyphen 45 false
                (collapse_runs is_ws 45 false (List.filter keep_name_char (toLowerCase title)))
              = p ++ createCleanFileName title ++ q.
Proof.
  unfold createCleanFileName, createCleanFileName_with.
  set (x := collapse_runs is_hyphen 45 false _).
  destruct (strip_hyphens_infix x) as [p [q Hx]].
  destruct (firstn_infix 100 (strip_hyphens x)) as [q' Hq'].
  exists p, (q' ++ q). rewrite Hx at 1. rewrite Hq' at 1. now rewrite <- !app_assoc.
Qed.

Lemma createCleanFileName_chars (title : jstr) :
  Forall (fun c => is_lower_alpha c || is_digit c || is_hyphen c = true)
         (createCleanFileName title).
Proof.
  destruct (createCleanFileName_pipeline title) as [p [q Hx]].
  apply List.Forall_forall. intros c Hc.
  assert (H : Forall (fun c => is_lower_alpha c || is_digit c || is_hyphen c = true)
                (collapse_runs is_hyphen 45 false
                   (collapse_runs is_ws 45 false (List.filter keep_name_char (toLowerCase title))))).
  { assert (Hin : Forall (fun c => is_lower_alpha c || is_digit c || is_hyphen c = true)
                (collapse_runs is_ws 45 false (List.filter keep_name_char (toLowerCase title)))).
    { apply collapse_runs_Forall; [reflexivity|].
      intros d Hd Hws. apply filter_In in Hd as [_ Hk].
      unfold keep_name_char in Hk. rewrite Hws in Hk. now rewrite orb_false_r in Hk. }
    apply collapse_runs_Forall; [reflexivity|].
    intros c' Hc' _. rewrite List.Forall_forall in Hin. now apply Hin. }
  rewrite List.Forall_forall in H. apply H. eapply in_infix; eauto.
Qed.

(** [createCleanFileName] only produces lower-case ASCII letters, digits
    and hyphens, and at most 100 code units, whatever the title. *)
Theorem createCleanFileName_charset (title : jstr) :
  Forall (fun c => is_lower_alpha c || is_digit c || is_hyphen c = true)
         (createCleanFileName title) /\
  (length (createCleanFileName title) <= 100)%nat.
Proof. split; [apply createCleanFileName_chars|apply firstn_le_length]. Qed.

(** A name from [createCleanFileName] never starts with a hyphen and
    never holds two hyphens in a row. *)
Theorem createCleanFileName_hyphens (title : jstr) :
  hd_error (createCleanFileName title) <> Some 45%N /\
  ~ (exists a b, createCleanFileName title = a ++ [45%N; 45%N] ++ b).
Proof.
  split.
  - unfold createCleanFileName, createCleanFileName_with.
    set (x := collapse_runs is_hyphen 45 false _).
    assert (Hx : has_pair 45 x = false) by apply collapse_hyphen_no_pair.
    pose proof (strip_hyphens_head x Hx) as H.
    destruct (strip_hyphens x) as [|c t]; [discriminate|exact H].
  - intros Hin. destruct (createCleanFileName_pipeline title) as [p [q Hx]].
    pose proof (has_pair_infix _ _ (infix_widen _ _ _ _ _ Hx Hin)) as H.
    rewrite (proj1 (collapse_hyphen_no_pair _ false)) in H. discriminate.
Qed.






(** ** Segmenter: trimmed segments *)

Definition all_trimmed (st : chunk_state) : Prop := forall x, In x (fst st) -> trim x = x.

Lemma all_trimmed_push (chunks : list jstr) (cur : jstr) :
  (forall x, In x chunks -> trim x = x) ->
  forall x, In x (chunks ++ [trim cur]) -> trim x = x.
Proof.
  intros H x Hx. apply in_app_or in Hx as [Hx|[<-|[]]]; [now apply H|apply trim_idem].
Qed.

Lemma sentence_step_trimmed (st : chunk_state) (x : jstr) :
  all_trimmed st -> all_trimmed (sentence_step st x).
Proof.
  destruct st as [chunks cur]. unfold all_trimmed, sentence_step. simpl. intros H.
  destruct (Nat.ltb _ _); simpl; [|exact H].
  destruct (truthy cur); [now apply all_trimmed_push|exact H].
Qed.

Lemma fold_sentence_step_trimmed (l : list jstr) (st : chunk_state) :
  all_trimmed st -> all_trimmed (fold_left sentence_step l st).
Proof.
  revert st; induction l as [|x l IH]; intros st H; simpl; [exact H|].
  apply IH, sentence_step_trimmed, H.
Qed.

Lemma paragraph_step_trimmed (st : chunk_state) (p : jstr) :
  all_trimmed st -> all_trimmed (paragraph_step st p).
Proof.
  destruct st as [chunks cur]. unfold paragraph_step. intros H.
  destruct (Nat.ltb _ (length p)).
  - apply fold_sentence_step_trimmed. unfold all_trimmed in *. simpl in *.
    destruct (truthy cur); [now apply all_trimmed_push|exact H].
  - destruct (Nat.ltb _ _); unfold all_trimmed in *; simpl in *; [|exact H].
    now apply all_trimmed_push.
Qed.

Lemma fold_paragraph_step_trimmed (l : list jstr) (st : chunk_state) :
  all_trimmed st -> all_trimmed (fold_left paragraph_step l st).
Proof.
  revert st; induction l as [|x l IH]; intros st H; simpl; [exact H|].
  apply IH, paragraph_step_trimmed, H.
Qed.

(** Above the ceiling, every segment [splitTextIntoChunks] returns is
    trimmed: it neither starts nor ends with white space. *)
Theorem splitTextIntoChunks_long_trimmed (text : jstr) :
  (MAX_CHARS_PER_REQUEST < length text)%nat ->
  forall seg, In seg (splitTextIntoChunks text) -> trim seg = seg.
Proof.
  intros Hlen seg Hseg. unfold splitTextIntoChunks in Hseg.
  destruct (Nat.leb_spec (length text) MAX_CHARS_PER_REQUEST) as [Hle|_]; [lia|].
  assert (H : all_trimmed (fold_left paragraph_step (split_paragraphs text) ([], [])))
    by (apply fold_paragraph_step_trimmed; intros x []).
  destruct (fold_left _ _ _) as [chunks cur]. unfold all_trimmed in H. simpl in H.
  destruct (truthy cur); [|now apply H]. revert seg Hseg. now apply all_trimmed_push.
Qed.

(** ** [escapeRegex] *)

(** [escapeRegex] is exact: read as a regular expression source, the
    escaped text matches the original text literally. *)
Theorem escapeRegex_literal (text : jstr) : regex_literal (escapeRegex text) = Some text.
Proof.
  induction text as [|c t IH]; [reflexivity|]. simpl.
  destruct (is_regex_special c) eqn:Ec; simpl.
  - rewrite Ec. fold (escapeRegex t). now rewrite IH.
  - assert (Hc : (c =? 92)%N = false).
    { destruct (N.eqb_spec c 92) as [->|]; [discriminate|reflexivity]. }
    rewrite Hc, Ec. fold (escapeRegex t). now rewrite IH.
Qed.

(** ** Part names *)

Definition digit_value (a : nat) (d : N) : nat := 10 * a + (N.to_nat d - 48).

Lemma digits_aux_value (fuel n : nat) (acc : jstr) :
  (n < fuel)%nat ->
  fold_left digit_value (digits_aux fuel n acc) 0 = fold_left digit_value acc n.
Proof.
  revert n acc; induction fuel as [|f IH]; intros n acc Hn; [lia|]. cbn [digits_aux].
  assert (Hd : forall k, (N.to_nat (48 + N.of_nat k) - 48 = k)%nat) by (intros; lia).
  destruct (Nat.ltb_spec n 10).
  - cbn [fold_left]. f_equal. unfold digit_value. rewrite Hd. rewrite Nat.mod_small by lia. lia.
  - rewrite IH by (apply Nat.lt_le_trans with n; [apply Nat.div_lt; lia|lia]).
    cbn [fold_left]. f_equal. unfold digit_value. rewrite Hd.
    pose proof (Nat.div_mod n 10). lia.
Qed.

Lemma show_nat_value (n : nat) : fold_left digit_value (show_nat n) 0 = n.
Proof. unfold show_nat. rewrite digits_aux_value by lia. reflexivity. Qed.

Lemma digits_aux_digits (fuel n : nat) (acc : jstr) (c : N) :
  In c (digits_aux fuel n acc) -> is_digit c = true \/ In c acc.
Proof.
  revert n acc; induction fuel as [|f IH]; intros n acc H; simpl in H; [now right|].
  assert (Hd : is_digit (48 + N.of_nat (n mod 10)) = true).
  { unfold is_digit. apply andb_true_intro. split; apply N.leb_le;
      pose proof (Nat.mod_upper_bound n 10); lia. }
  destruct (Nat.ltb n 10).
  - destruct H as [<-|H]; [now left|now right].
  - destruct (IH _ _ H) as [H'|[<-|H']]; [now left|now left|now right].
Qed.

Lemma show_nat_digits (n : nat) (c : N) : In c (show_nat n) -> is_digit c = true.
Proof. intros H. now destruct (digits_aux_digits _ _ _ _ H). Qed.

Lemma show_nat_mp3_inj (a b : nat) : show_nat a ++ mp3 = show_nat b ++ mp3 -> a = b.
Proof.
  intros H. rewrite <- (show_nat_value a), <- (show_nat_value b). f_equal.
  now apply app_inv_tail in H.
Qed.

Section Paths.
Variable outputDir : jstr.

(** Two different part indices give two different part file paths, so
    no part overwrites another. *)
Theorem part_paths_distinct (clean : jstr) (i j : nat) :
  i <> j -> part_path outputDir clean i <> part_path outputDir clean j.
Proof.
  intros Hij H. unfold part_path, part_name, path_join in H.
  apply app_inv_head in H. apply app_inv_head in H.
  rewrite <- !app_assoc in H. apply app_inv_head in H. apply app_inv_head in H.
  apply show_nat_mp3_inj in H. lia.
Qed.
End Paths.


(** ** [cleanContentForTTS]: shape of the output *)

Fixpoint has_triple (s : jstr) : bool :=
  match s with
  | [] => false
  | a :: t =>
      match t with
      | b :: c :: _ => (a =? 10)%N && (b =? 10)%N && (c =? 10)%N
      | _ => false
      end || has_triple t
  end.

Lemma has_triple_infix (s : jstr) :
  (exists a b, s = a ++ [10%N; 10%N; 10%N] ++ b) -> has_triple s = true.
Proof.
  intros [a [b ->]]. induction a as [|y a IH]; simpl in *; [reflexivity|].
  rewrite IH. apply orb_true_r.
Qed.

Lemma has_triple_block (a : jstr) (c : N) (b : jstr) :
  (length a <= 2)%nat -> c <> 10%N -> has_triple b = false -> has_triple (a ++ c :: b) = false.
Proof.
  intros Ha Hc Hb. apply N.eqb_neq in Hc.
  destruct a as [|x [|y [|z a]]]; simpl in Ha |- *; try lia.
  - rewrite Hb. destruct b as [|d [|e u]]; simpl; rewrite ?Hc; reflexivity.
  - rewrite Hb. destruct b as [|d [|e u]]; simpl; rewrite ?Hc, ?andb_false_r; reflexivity.
  - rewrite Hb. destruct b as [|d [|e u]]; simpl; rewrite ?Hc, ?andb_false_r; reflexivity.
Qed.

Lemma has_triple_repeat (k : nat) : (k <= 2)%nat -> has_triple (repeat 10%N k) = false.
Proof. intros H. destruct k as [|[|[|k]]]; [reflexivity..|simpl in H; lia]. Qed.

Lemma normalize_newlines_no_triple (s : jstr) : forall k,
  has_triple (normalize_newlines_go k s) = false.
Proof.
  induction s as [|c t IH]; intros k; cbn [normalize_newlines_go].
  - apply has_triple_repeat. destruct (Nat.leb_spec 3 k); lia.
  - destruct (N.eqb_spec c 10); [apply IH|].
    apply has_triple_block; [|exact n|apply IH].
    rewrite repeat_length. destruct (Nat.leb_spec 3 k); lia.
Qed.

Section CleanProofs.
Variable canon : N -> N.

(** The text [cleanContentForTTS] returns is trimmed and never holds
    three line feeds in a row. *)
Theorem cleanContentForTTS_shape (title content : jstr) :
  trim (cleanContentForTTS_with canon title content) = cleanContentForTTS_with canon title content /\
  ~ (exists a b, cleanContentForTTS_with canon title content = a ++ [10%N; 10%N; 10%N] ++ b).
Proof.
  unfold cleanContentForTTS_with. cbv zeta. split; [apply trim_idem|].
  intros Hin. set (x := normalize_newlines _) in Hin.
  destruct (trim_infix x) as [p [q Hx]].
  pose proof (has_triple_infix _ (infix_widen _ _ _ _ _ Hx Hin)) as H.
  subst x. unfold normalize_newlines in H. rewrite normalize_newlines_no_triple in H.
  discriminate.
Qed.

(** ** [cleanContentForTTS]: the length never grows *)

Lemma header_match_app (s m rest : jstr) :
  header_match s = Some (m, rest) -> s = m ++ rest /\ m <> [].
Proof.
  unfold header_match.
  destruct (span is_ws s) as [w1 s1] eqn:E1.
  destruct (span is_hash s1) as [h s2] eqn:E2.
  destruct h as [|x h]; [discriminate|].
  destruct (span is_ws s2) as [w2 s3] eqn:E3. intros H. inversion H; subst.
  apply span_app in E1, E2, E3. subst. split.
  - rewrite <- !app_assoc. simpl. now rewrite <- !app_assoc.
  - intros Hm. apply (f_equal (@length N)) in Hm. rewrite !length_app in Hm. simpl in Hm. lia.
Qed.

Lemma strip_headers_go_length (fuel : nat) : forall bol s,
  (length (strip_headers_go fuel bol s) <= length s)%nat.
Proof.
  induction fuel as [|f IH]; intros bol s; simpl; [lia|].
  destruct s as [|c t]; [simpl; lia|].
  destruct (if bol then header_match (c :: t) else None) as [[m rest]|] eqn:E.
  - destruct bol; [|discriminate]. apply header_match_app in E as [Hs Hm].
    rewrite Hs, length_app. etransitivity; [apply IH|].
    destruct m; [congruence|simpl; lia].
  - simpl. specialize (IH (is_line_terminator c) t). lia.
Qed.

Lemma starts_with_app (d s : jstr) : starts_with d s = true -> s = d ++ skipn (length d) s.
Proof.
  revert s; induction d as [|a d IH]; intros s H; [reflexivity|].
  destruct s as [|c s]; [discriminate|]. simpl in H |- *.
  apply andb_true_iff in H as [Ha H]. apply N.eqb_eq in Ha. subst. f_equal. now apply IH.
Qed.

Lemma lazy_until_app (d s i r : jstr) : lazy_until d s = Some (i, r) -> s = i ++ d ++ r.
Proof.
  revert i r; induction s as [|c t IH]; intros i r H; simpl in H.
  - destruct (starts_with d []) eqn:E; [|discriminate]. inversion H; subst.
    simpl. now apply starts_with_app.
  - destruct (starts_with d (c :: t)) eqn:E.
    + inversion H; subst. simpl. now apply starts_with_app.
    + destruct (is_line_terminator c); [discriminate|].
      destruct (lazy_until d t) as [[i' r']|] eqn:E'; [|discriminate].
      simpl in H. inversion H; subst. simpl. f_equal. now apply IH.
Qed.

Lemma unwrap_go_length (d : jstr) (fuel : nat) : forall s,
  (length (unwrap_go d fuel s) <= length s)%nat.
Proof.
  induction fuel as [|f IH]; intros s; simpl; [lia|].
  destruct s as [|c t]; [simpl; lia|].
  destruct (if starts_with d (c :: t) then lazy_until d (skipn (length d) (c :: t)) else None)
    as [[inner rest]|] eqn:E.
  - destruct (starts_with d (c :: t)) eqn:Es; [|discriminate].
    apply lazy_until_app in E. apply starts_with_app in Es.
    rewrite Es, E. rewrite !length_app. specialize (IH rest). lia.
  - simpl. specialize (IH t). lia.
Qed.

Lemma normalize_newlines_length (s : jstr) : forall k,
  (length (normalize_newlines_go k s) <= k + length s)%nat.
Proof.
  induction s as [|c t IH]; intros k; cbn [normalize_newlines_go].
  - rewrite repeat_length. destruct (Nat.leb_spec 3 k); lia.
  - cbn [length]. destruct (N.eqb_spec c 10); [specialize (IH (S k)); lia|].
    rewrite length_app, repeat_length. cbn [length]. specialize (IH 0%nat).
    destruct (Nat.leb_spec 3 k); lia.
Qed.

Lemma lit_match_length (v s r : jstr) :
  lit_match canon v s = Some r -> length s = (length v + length r)%nat.
Proof.
  revert s; induction v as [|a v IH]; intros s H; simpl in H.
  - now inversion H.
  - destruct s as [|c s]; [discriminate|]. destruct (canon a =? canon c)%N; [|discriminate].
    simpl. rewrite (IH s H). reflexivity.
Qed.

Lemma tail_match_length (s : jstr) (n : nat) : tail_match s = Some n -> (n <= length s)%nat.
Proof.
  revert n; induction s as [|c t IH]; intros n H; simpl in H.
  - inversion H; subst. simpl. lia.
  - destruct (is_ws c); [|discriminate].
    destruct (tail_match t) as [m|] eqn:E.
    + inversion H; subst. specialize (IH m eq_refl). simpl. lia.
    + destruct (c =? 10)%N; [|discriminate]. inversion H; subst. simpl. lia.
Qed.

Lemma lit_tail_match_length (v s : jstr) (n : nat) :
  lit_tail_match canon v s = Some n -> (length v <= n <= length s)%nat.
Proof.
  unfold lit_tail_match. destruct (lit_match canon v s) as [r|] eqn:E; [|discriminate].
  destruct (tail_match r) as [m|] eqn:Et; [|discriminate]. simpl. intros H. inversion H; subst.
  apply lit_match_length in E. apply tail_match_length in Et. lia.
Qed.

Lemma body_match_length (v s : jstr) (n : nat) :
  body_match canon v s = Some n -> (length v <= n <= length s)%nat.
Proof.
  revert n; induction s as [|c t IH]; intros n H; simpl in H.
  - now apply lit_tail_match_length.
  - destruct (is_ws c).
    + destruct (body_match canon v t) as [m|] eqn:E.
      * inversion H; subst. specialize (IH m eq_refl). simpl. lia.
      * now apply lit_tail_match_length.
    + now apply lit_tail_match_length.
Qed.

Lemma title_match_at_length (v : jstr) (b : bool) (s : jstr) (n : nat) :
  title_match_at canon v b s = Some n -> (length v <= n <= length s)%nat.
Proof.
  unfold title_match_at.
  destruct (if b then body_match canon v s else None) as [m|] eqn:E.
  - intros H. inversion H; subst. destruct b; [|discriminate]. now apply body_match_length.
  - destruct s as [|c t]; [discriminate|]. destruct (c =? 10)%N; [|discriminate].
    destruct (body_match canon v t) as [m|] eqn:Eb; [|discriminate].
    simpl. intros H. inversion H; subst. apply body_match_length in Eb. simpl. lia.
Qed.

Lemma replace_title_go_length (v : jstr) (fuel : nat) : v <> [] -> forall b first s,
  (length (replace_title_go canon v fuel b first s) <= length s)%nat.
Proof.
  intros Hv. induction fuel as [|f IH]; intros b first s; simpl; [lia|].
  destruct (title_match_at canon v b s) as [[|n]|] eqn:E.
  - apply title_match_at_length in E. destruct v; [congruence|simpl in E; lia].
  - pose proof (title_match_at_length _ _ _ _ E) as Hn.
    rewrite length_app. specialize (IH false false (skipn (S n) s)).
    rewrite length_skipn in IH. destruct first; simpl.
    + rewrite firstn_length_le by lia. lia.
    + lia.
  - destruct s as [|c t]; [simpl; lia|]. simpl. specialize (IH false first t). lia.
Qed.

Lemma dedupe_step_length (s v : jstr) : (length (dedupe_step canon s v) <= length s)%nat.
Proof.
  unfold dedupe_step. destruct (truthy (trim v)) eqn:Et; simpl; [|lia].
  destruct (Nat.ltb _ _); [|lia]. unfold replace_title. apply replace_title_go_length.
  intros ->. discriminate.
Qed.

Lemma fold_dedupe_length (vs : list jstr) (s : jstr) :
  (length (fold_left (dedupe_step canon) vs s) <= length s)%nat.
Proof.
  revert s; induction vs as [|v vs IH]; intros s; simpl; [lia|].
  specialize (IH (dedupe_step canon s v)). pose proof (dedupe_step_length s v). lia.
Qed.

Lemma cleanContentForTTS_with_length (title content : jstr) :
  (length (cleanContentForTTS_with canon title content) <= length content)%nat.
Proof.
  unfold cleanContentForTTS_with. cbv zeta.
  eapply Nat.le_trans; [apply length_trim|].
  eapply Nat.le_trans; [apply (normalize_newlines_length _ 0)|]. cbn [Nat.add].
  eapply Nat.le_trans; [apply fold_dedupe_length|].
  eapply Nat.le_trans; [apply length_trim|].
  eapply Nat.le_trans; [apply (normalize_newlines_length _ 0)|]. cbn [Nat.add].
  eapply Nat.le_trans; [apply unwrap_go_length|].
  eapply Nat.le_trans; [apply unwrap_go_length|].
  eapply Nat.le_trans; [apply strip_headers_go_length|].
  apply length_trim.
Qed.

(** [cleanContentForTTS] never makes the text longer. *)
Theorem cleanContentForTTS_length (title content : jstr) :
  (length (cleanContentForTTS_with canon title content) <= length content)%nat.
Proof. apply cleanContentForTTS_with_length. Qed.

(** ** [cleanContentForTTS]: single-line plain text *)

Lemma header_match_none (s : jstr) : (forall c, In c s -> c <> 35%N) -> header_match s = None.
Proof.
  intros Hs. unfold header_match.
  destruct (span is_ws s) as [w1 s1] eqn:E1.
  destruct (span is_hash s1) as [h s2] eqn:E2.
  destruct h as [|x h]; [reflexivity|]. exfalso.
  pose proof (span_all _ _ _ _ E2 x (or_introl eq_refl)) as Hx.
  apply span_app in E1, E2. subst. apply (Hs x).
  - apply in_or_app. right. now left.
  - unfold is_hash in Hx. now apply N.eqb_eq.
Qed.

Lemma strip_headers_go_id (fuel : nat) : forall bol s,
  (forall c, In c s -> c <> 35%N) -> strip_headers_go fuel bol s = s.
Proof.
  induction fuel as [|f IH]; intros bol s Hs; simpl; [reflexivity|].
  destruct s as [|c t]; [reflexivity|].
  rewrite (header_match_none _ Hs). destruct bol; f_equal; apply IH; intros; apply Hs; now right.
Qed.

Lemma unwrap_go_id (a : N) (d : jstr) (fuel : nat) : forall s,
  (forall c, In c s -> c <> a) -> unwrap_go (a :: d) fuel s = s.
Proof.
  induction fuel as [|f IH]; intros s Hs; simpl; [reflexivity|].
  destruct s as [|c t]; [reflexivity|].
  assert (E : (a =? c)%N = false) by (apply N.eqb_neq; intros ->; now apply (Hs c); [left|]).
  simpl. rewrite E. simpl. f_equal. apply IH. intros; apply Hs; now right.
Qed.

Lemma normalize_newlines_id (s : jstr) :
  (forall c, In c s -> c <> 10%N) -> normalize_newlines_go 0 s = s.
Proof.
  induction s as [|c t IH]; intros Hs; [reflexivity|]. simpl.
  destruct (N.eqb_spec c 10) as [->|_]; [exfalso; now apply (Hs 10%N); [left|]|].
  simpl. f_equal. apply IH. intros; apply Hs; now right.
Qed.

Lemma title_match_at_false (v s : jstr) :
  (forall c, In c s -> c <> 10%N) -> title_match_at canon v false s = None.
Proof.
  intros Hs. unfold title_match_at. destruct s as [|c t]; [reflexivity|].
  destruct (N.eqb_spec c 10) as [->|_]; [exfalso; now apply (Hs 10%N); [left|]|reflexivity].
Qed.

Lemma title_matches_go_false (v : jstr) (fuel : nat) : forall s,
  (forall c, In c s -> c <> 10%N) -> title_matches_go canon v fuel false s = [].
Proof.
  induction fuel as [|f IH]; intros s Hs; simpl; [reflexivity|].
  rewrite (title_match_at_false _ _ Hs). destruct s as [|c t]; [reflexivity|].
  apply IH. intros; apply Hs; now right.
Qed.

Lemma in_skipn' {A} (n : nat) (s : list A) (c : A) : In c (skipn n s) -> In c s.
Proof. intros H. rewrite <- (firstn_skipn n s). apply in_or_app. now right. Qed.

Lemma title_matches_single_line (v s : jstr) :
  (forall c, In c s -> c <> 10%N) -> (length (title_matches canon v s) <= 1)%nat.
Proof.
  intros Hs. unfold title_matches. simpl.
  destruct (title_match_at canon v true s) as [[|n]|].
  - destruct s as [|c t]; [simpl; lia|].
    rewrite title_matches_go_false; [simpl; lia|]. intros; apply Hs; now right.
  - rewrite title_matches_go_false; [simpl; lia|]. intros c Hc. apply Hs. eapply in_skipn'; eauto.
  - destruct s as [|c t]; [simpl; lia|].
    rewrite title_matches_go_false; [simpl; lia|]. intros; apply Hs; now right.
Qed.

Lemma dedupe_step_single_line (s v : jstr) :
  (forall c, In c s -> c <> 10%N) -> dedupe_step canon s v = s.
Proof.
  intros Hs. unfold dedupe_step. destruct (negb _); [reflexivity|].
  pose proof (title_matches_single_line v s Hs).
  destruct (Nat.ltb_spec 1 (length (title_matches canon v s))); [lia|reflexivity].
Qed.

Lemma fold_dedupe_single_line (vs : list jstr) (s : jstr) :
  (forall c, In c s -> c <> 10%N) -> fold_left (dedupe_step canon) vs s = s.
Proof.
  revert s; induction vs as [|v vs IH]; intros s Hs; simpl; [reflexivity|].
  rewrite dedupe_step_single_line by exact Hs. now apply IH.
Qed.

(** Content on one line with no [#] and no [*] comes out of
    [cleanContentForTTS] only trimmed. *)
Theorem cleanContentForTTS_single_line (title content : jstr) :
  (forall c, In c content -> c <> 10%N /\ c <> 35%N /\ c <> 42%N) ->
  cleanContentForTTS_with canon title content = trim content.
Proof.
  intros H. unfold cleanContentForTTS_with. cbv zeta.
  assert (Ht : forall c, In c (trim content) -> c <> 10%N /\ c <> 35%N /\ c <> 42%N)
    by (intros c Hc; apply H, in_trim, Hc).
  unfold strip_headers. rewrite strip_headers_go_id by (intros c Hc; apply Ht, Hc).
  unfold unwrap, bold_delim, italic_delim.
  rewrite (unwrap_go_id 42%N [42%N] _ (trim content)) by (intros c Hc; apply Ht, Hc).
  rewrite unwrap_go_id by (intros c Hc; apply Ht, Hc).
  unfold normalize_newlines.
  rewrite (normalize_newlines_id (trim content)) by (intros c Hc; apply Ht, Hc).
  rewrite trim_idem.
  rewrite fold_dedupe_single_line by (intros c Hc; apply Ht, Hc).
  rewrite normalize_newlines_id by (intros c Hc; apply Ht, Hc).
  apply trim_idem.
Qed.
End CleanProofs.

(** ** File store effects of the audio functions *)

Section AudioProofs.
Variable outputDir : jstr.
Variable synthesizeSpeech : list event -> jstr -> tts_response.

End AudioProofs.

Section ChapterProofs.
Variable outputDir : jstr.
Variable synthesizeSpeech : list event -> jstr -> tts_response.
Variable cleanContentForTTS : jstr -> jstr -> jstr.

(** [generateMultipleChapterAudio] synthesizes the chapters' cleaned
    contents one by one, in order, and stops at the first failure, whose
    message starts with ["TTS generation failed: "].  It only writes the
    chapters' [<outputDir>/<name>.mp3] files.  On success it returns one
    file per chapter, in order, and each exists; on failure the files of
    the chapters before the failing one exist. *)
Theorem generateMultipleChapterAudio_outcome (chapters : list Chapter.t) (w : world) :
  let path := fun ch => path_join outputDir (createCleanFileName (Chapter.title ch) ++ mp3) in
  let '(r, w') := generateMultipleChapterAudio outputDir synthesizeSpeech cleanContentForTTS
                    chapters w in
  exists n, (n <= length chapters)%nat /\
    trace w' = trace w ++ map (fun ch => EvSynth (cleanContentForTTS (Chapter.title ch)
                                                   (Chapter.content ch))) (firstn n chapters) /\
    (forall k, (forall ch, In ch chapters -> k <> path ch) -> files w' !! k = files w !! k) /\
    (forall k, is_Some (files w !! k) -> is_Some (files w' !! k)) /\
    match r with
    | inr afs =>
        n = length chapters /\ map filePath afs = map path chapters /\
        (forall af, In af afs -> is_Some (files w' !! filePath af))
    | inl e =>
        (0 < n)%nat /\ (exists m, e = tts_failed ++ m) /\
        (forall ch, In ch (firstn (n - 1) chapters) -> is_Some (files w' !! path ch))
    end.
Proof.
  intros path. revert w. induction chapters as [|ch rest IH]; intros w.
  - exists 0%nat. simpl. rewrite app_nil_r. repeat split; auto; intros; tauto.
  - simpl generateMultipleChapterAudio. unfold bind at 1, generateChapterAudio.
    rewrite generateAudio_run. cbv zeta.
    destruct (synthesizeSpeech _ _) as [m|[a|]].
    + exists 1%nat. simpl. repeat split; eauto; try lia; intros; tauto.
    + set (w1 := mkWorld (<[path ch := a]> (files w))
                   (trace w ++ [EvSynth (cleanContentForTTS (Chapter.title ch)
                                          (Chapter.content ch))])).
      change (path_join outputDir (createCleanFileName (Chapter.title ch) ++ mp3))
        with (path ch).
      fold w1.
      specialize (IH w1).
      destruct (generateMultipleChapterAudio outputDir synthesizeSpeech cleanContentForTTS
                  rest w1) as [r w'] eqn:E.
      rewrite (bind_eq _ _ _ _ _ E).
      destruct IH as [n [Hn [Htr [Hfr [Hmono Hr]]]]].
      assert (Hch : is_Some (files w' !! path ch)).
      { apply Hmono. simpl. rewrite lookup_insert_eq. eauto. }
      assert (Hfr' : forall k, (forall c, In c (ch :: rest) -> k <> path c) ->
                       files w' !! k = files w !! k).
      { intros k Hk. rewrite Hfr by (intros c Hc; apply Hk; now right).
        simpl. apply lookup_insert_ne. intros Heq. apply (Hk ch); [now left|congruence]. }
      assert (Hmono' : forall k, is_Some (files w !! k) -> is_Some (files w' !! k)).
      { intros k Hk. apply Hmono. simpl.
        destruct (decide (path ch = k)) as [<-|Hne];
          [rewrite lookup_insert_eq; eauto|now rewrite lookup_insert_ne]. }
      assert (Htr' : trace w' = trace w ++
                map (fun c => EvSynth (cleanContentForTTS (Chapter.title c) (Chapter.content c)))
                  (firstn (S n) (ch :: rest))).
      { rewrite Htr. simpl. now rewrite <- app_assoc. }
      destruct r as [e|afs]; unfold ret; cbv beta iota;
        exists (S n); (split; [simpl; lia|]); (split; [exact Htr'|]);
        (split; [exact Hfr'|]); (split; [exact Hmono'|]).
      * destruct Hr as [H0 [Hm Hj]]. split; [lia|]. split; [exact Hm|].
        destruct n as [|n]; [lia|]. replace (S n - 1)%nat with n in Hj by lia. simpl.
        intros c [<-|Hc]; [exact Hch|]. apply Hj. exact Hc.
      * destruct Hr as [-> [Hmap Hj]]. split; [reflexivity|]. split.
        { simpl. now rewrite Hmap. }
        intros af [<-|Haf]; [exact Hch|]. now apply Hj.
    + exists 1%nat. simpl. repeat split; eauto; try lia; intros; tauto.
Qed.
End ChapterProofs.

Section BuildFrame.
Variable outputDir : jstr.
Variable synthesizeSpeech : list event -> jstr -> tts_response.
Variable ffmpeg : gmap (list N) (list N) -> jstr -> jstr -> ffmpeg_outcome.
Variable cleanContentForTTS : jstr -> jstr -> jstr.

(** A chapter build changes no file but the chapter's final file, the
    concat list and the chapter's part files. *)
Theorem generateChapterAudioWithChunking_frame (title content : jstr) (w : world) (k : jstr) :
  k <> final_path outputDir (createCleanFileName title) ->
  k <> concatListPath outputDir ->
  (forall j, k <> part_path outputDir (createCleanFileName title) j) ->
  files (snd (generateChapterAudioWithChunking outputDir synthesizeSpeech ffmpeg
                cleanContentForTTS title content w)) !! k = files w !! k.
Proof.
  intros Hfin Hcl Hpart.
  destruct (Nat.leb_spec (length (cleanContentForTTS title content)) MAX_CHARS_PER_REQUEST)
    as [Hle|Hgt].
  - unfold generateChapterAudioWithChunking. apply Nat.leb_le in Hle. rewrite Hle.
    rewrite generateAudio_run. cbv zeta.
    destruct (synthesizeSpeech _ _) as [m|[a|]]; try reflexivity.
    simpl. apply lookup_insert_ne. intros H. apply Hfin. now rewrite <- H.
  - rewrite build_long_cases by exact Hgt. cbv zeta.
    pose proof (generate_parts_spec outputDir synthesizeSpeech (createCleanFileName title)
                  (splitTextIntoChunks (cleanContentForTTS title content)) 0 w) as Hgp.
    destruct (generate_parts _ _ _ _ _ w) as [[e|ps] w1] eqn:E1;
      destruct Hgp as [n [_ [_ [Hfr [_ Hr]]]]].
    + simpl. apply Hfr. exact Hpart.
    + destruct Hr as [_ [Hps _]].
      assert (Hnotin : ~ In k ps).
      { rewrite Hps. intros Hin. apply in_map_iff in Hin as [j [Hj _]].
        apply (Hpart (0 + j)%nat). now rewrite Hj. }
      rewrite concatenateAudioFiles_run. cbv zeta.
      destruct (ffmpeg _ _ _) as [d|msg partial].
      * match goal with
        | |- files (snd (match ?x with Some _ => _ | None => _ end)) !! _ = _ => destruct x
        end; simpl;
          rewrite delete_all_notin by exact Hnotin;
          rewrite lookup_delete_ne by congruence;
          rewrite lookup_insert_ne by congruence;
          rewrite lookup_insert_ne by congruence; now apply Hfr.
      * simpl. rewrite lookup_delete_ne by congruence.
        destruct partial as [d|]; [rewrite lookup_insert_ne by congruence|];
          rewrite lookup_insert_ne by congruence; now apply Hfr.
Qed.
End BuildFrame.

(** With the real cleaning, content of at most [MAX_CHARS_PER_REQUEST]
    code units always takes the direct path: the build is
    [generateChapterAudio]. *)
Theorem generateChapterAudioWithChunking_short_content (canon : N -> N) (outputDir : jstr) (synthesizeSpeech : list event -> jstr -> tts_response)
  (ffmpeg : gmap (list N) (list N) -> jstr -> jstr -> ffmpeg_outcome)
  (title content chapterId : jstr) (w : world) :
  (length content <= MAX_CHARS_PER_REQUEST)%nat ->
  generateChapterAudioWithChunking outputDir synthesizeSpeech ffmpeg
    (cleanContentForTTS_with canon) title content w =
  generateChapterAudio outputDir synthesizeSpeech (cleanContentForTTS_with canon)
    title content chapterId w.
Proof.
  intros H. unfold generateChapterAudioWithChunking, generateChapterAudio. cbv zeta.
  pose proof (cleanContentForTTS_with_length canon title content) as Hl.
  assert (Hb : Nat.leb (length (cleanContentForTTS_with canon title content))
                 MAX_CHARS_PER_REQUEST = true) by (apply Nat.leb_le; lia).
  now rewrite Hb.
Qed.

(** ** The concat list names the parts by their bare file names *)

Lemma take_until_slash_app (u v : jstr) :
  (forall c, In c u -> c <> 47%N) -> take_until_slash (u ++ 47%N :: v) = u.
Proof.
  induction u as [|c u IH]; intros H; [reflexivity|]. simpl.
  destruct (N.eqb_spec c 47) as [->|_]; [exfalso; now apply (H 47%N); [left|]|].
  f_equal. apply IH. intros; apply H; now right.
Qed.

Lemma basename_path_join (dir name : jstr) :
  (forall c, In c name -> c <> 47%N) -> basename (path_join dir name) = name.
Proof.
  intros H. unfold basename, path_join. rewrite !rev_app_distr. simpl.
  rewrite <- app_assoc. simpl. rewrite take_until_slash_app.
  - apply rev_involutive.
  - intros c Hc. apply H. now apply in_rev.
Qed.

Lemma part_name_no_slash (title : jstr) (i : nat) (c : N) :
  In c (part_name (createCleanFileName title) i ++ mp3) -> c <> 47%N.
Proof.
  intros Hc ->. unfold part_name in Hc. rewrite <- !app_assoc in Hc.
  apply in_app_or in Hc as [Hc|Hc].
  - pose proof (createCleanFileName_chars title) as Hf.
    rewrite List.Forall_forall in Hf. specialize (Hf _ Hc). discriminate.
  - apply in_app_or in Hc as [Hc|Hc]; [vm_compute in Hc; intuition discriminate|].
    apply in_app_or in Hc as [Hc|Hc].
    + apply show_nat_digits in Hc. discriminate.
    + vm_compute in Hc. intuition discriminate.
Qed.

(** The concat list of a build's parts names each part by its bare file
    name [<name>-part<i+1>.mp3], one line per part, whatever the output
    directory. *)
Theorem concat_list_part_paths (outputDir title : jstr) (n : nat) :
  concat_list (map (part_path outputDir (createCleanFileName title)) (seq 0 n)) =
  join_lines (map (fun i => of_ascii "file '"%string ++
                              (part_name (createCleanFileName title) i ++ mp3) ++
                              of_ascii "'"%string) (seq 0 n)).
Proof.
  unfold concat_list. rewrite map_map. f_equal. apply map_ext. intros i.
  unfold part_path. rewrite basename_path_join; [reflexivity|].
  apply part_name_no_slash.
Qed.

Lemma no_slash_ne_path_join (k dir name : jstr) : ~ In 47%N k -> k <> path_join dir name.
Proof.
  intros Hk ->. apply Hk. unfold path_join. apply in_or_app. right. now left.
Qed.

Lemma splitTextIntoChunks_long_trimmed_witness :
  (MAX_CHARS_PER_REQUEST < length demo_text)%nat /\
  forall seg, In seg (splitTextIntoChunks demo_text) -> trim seg = seg.
Proof.
  assert (H : (MAX_CHARS_PER_REQUEST < length demo_text)%nat)
    by (apply Nat.ltb_lt; vm_compute; reflexivity).
  split; [exact H|]. exact (splitTextIntoChunks_long_trimmed _ H).
Defined.

Lemma part_paths_distinct_witness :
  (0 <> 1)%nat /\ part_path demo_dir demo_name 0 <> part_path demo_dir demo_name 1.
Proof.
  assert (H : (0 <> 1)%nat) by lia.
  split; [exact H|]. exact (part_paths_distinct demo_dir demo_name 0 1 H).
Defined.

Lemma cleanContentForTTS_single_line_witness :
  (forall c, In c demo_short -> c <> 10%N /\ c <> 35%N /\ c <> 42%N) /\
  cleanContentForTTS_with canonicalize demo_title demo_short = trim demo_short.
Proof.
  assert (H : forall c, In c demo_short -> c <> 10%N /\ c <> 35%N /\ c <> 42%N).
  { intros c Hc. vm_compute in Hc.
    repeat destruct Hc as [<-|Hc]; try destruct Hc; repeat split; discriminate. }
  split; [exact H|]. exact (cleanContentForTTS_single_line canonicalize demo_title demo_short H).
Defined.

Lemma generateChapterAudioWithChunking_frame_witness :
  demo_notes <> final_path demo_dir demo_name /\
  demo_notes <> concatListPath demo_dir /\
  (forall j, demo_notes <> part_path demo_dir demo_name j) /\
  files (snd (demo_run tts_ok ff_ok demo_text)) !! demo_notes = files w0 !! demo_notes.
Proof.
  assert (Hk : ~ In 47%N demo_notes) by (vm_compute; intuition discriminate).
  assert (H1 : demo_notes <> final_path demo_dir demo_name) by now apply no_slash_ne_path_join.
  assert (H2 : demo_notes <> concatListPath demo_dir) by now apply no_slash_ne_path_join.
  assert (H3 : forall j, demo_notes <> part_path demo_dir demo_name j)
    by (intros j; now apply no_slash_ne_path_join).
  split; [exact H1|]. split; [exact H2|]. split; [exact H3|].
  exact (generateChapterAudioWithChunking_frame demo_dir tts_ok ff_ok demo_clean demo_title
           demo_text w0 demo_notes H1 H2 H3).
Defined.

Lemma generateChapterAudioWithChunking_short_content_witness :
  (length demo_short <= MAX_CHARS_PER_REQUEST)%nat /\
  generateChapterAudioWithChunking demo_dir tts_ok ff_ok
    (cleanContentForTTS_with canonicalize) demo_title demo_short w0 =
  generateChapterAudio demo_dir tts_ok (cleanContentForTTS_with canonicalize)
    demo_title demo_short [] w0.
Proof.
  assert (H : (length demo_short <= MAX_CHARS_PER_REQUEST)%nat)
    by (apply Nat.leb_le; vm_compute; reflexivity).
  split; [exact H|].
  exact (generateChapterAudioWithChunking_short_content canonicalize demo_dir tts_ok ff_ok
           demo_title demo_short [] w0 H).
Defined.

Section ConcatProofs.
Variable outputDir : jstr.
Variable ffmpeg : gmap (list N) (list N) -> jstr -> jstr -> ffmpeg_outcome.

End ConcatProofs.
